(** * scripts/vibevoice-tts.py: voice discovery, voice-name resolution and
    the generation pipeline, embedded shallowly.

    Python strings are sequences of Unicode code points, so [str] is
    [list N].  The registry of voices is a Python [dict], whose iteration
    order the code relies on: it is an association list with unique keys.
    Calls into torch, the VibeVoice library, the file system and ffmpeg are
    answered by a [World] record; the calls made, the lines written to the
    error stream and the set of existing files are threaded through a small
    state-and-exception monad. *)

From Stdlib Require Import NArith ZArith List Ascii String Bool Lia.
From stdpp Require Import base decidable list sorting gmap.

Local Open Scope N_scope.

(** ** Python strings *)
Module Str.

Definition str := list N.

(** ASCII literal of the source as a sequence of code points. *)
Definition lit (s : string) : str :=
  List.map N_of_ascii (list_ascii_of_string s).

Definition str_eqb (a b : str) : bool := bool_decide (a = b).

(** [str.isspace] per code point: the characters [str.strip()] removes. *)
Definition is_space (c : N) : bool :=
  ((9 <=? c) && (c <=? 13)) || ((28 <=? c) && (c <=? 32))
  || (c =? 133) || (c =? 160) || (c =? 5760)
  || ((8192 <=? c) && (c <=? 8202))
  || (c =? 8232) || (c =? 8233) || (c =? 8239) || (c =? 8287)
  || (c =? 12288).

Fixpoint lstrip (s : str) : str :=
  match s with
  | [] => []
  | c :: s' => if is_space c then lstrip s' else s
  end.

Definition rstrip (s : str) : str := rev (lstrip (rev s)).

(** [s.strip()] *)
Definition strip (s : str) : str := rstrip (lstrip s).

(** [s.split(sep)] for a one-character separator: never the empty list. *)
Fixpoint split (sep : N) (s : str) : list str :=
  match s with
  | [] => [[]]
  | c :: s' =>
      if c =? sep then [] :: split sep s'
      else match split sep s' with
           | [] => [[c]]
           | w :: ws => (c :: w) :: ws
           end
  end.

(** [s.startswith(p)] *)
Fixpoint startswith (s p : str) {struct p} : bool :=
  match p, s with
  | [], _ => true
  | _ :: _, [] => false
  | a :: p', b :: s' => (a =? b) && startswith s' p'
  end.

(** [sub in s]: [sub] occurs in [s] as a contiguous run. *)
Fixpoint contains (s sub : str) : bool :=
  startswith s sub ||
  match s with
  | [] => false
  | _ :: s' => contains s' sub
  end.

(** [s.replace(old, new)] for one-character [old] and [new]. *)
Definition replace (old new : N) (s : str) : str :=
  List.map (fun c => if c =? old then new else c) s.

(** Lowering of the ASCII letters, the part of [str.lower()] that does not
    depend on the Unicode tables. *)
Definition ascii_lower_cp (c : N) : N :=
  if (65 <=? c) && (c <=? 90) then c + 32 else c.

Definition is_ascii (c : N) : bool := c <? 128.

(** Comparison of strings, code point by code point, as [<] on [str]. *)
Fixpoint compare (a b : str) : comparison :=
  match a, b with
  | [], [] => Eq
  | [], _ :: _ => Lt
  | _ :: _, [] => Gt
  | x :: a', y :: b' =>
      match N.compare x y with
      | Eq => compare a' b'
      | c => c
      end
  end.

Definition ltb (a b : str) : bool :=
  match compare a b with Lt => true | _ => false end.

Definition leb (a b : str) : bool :=
  match compare a b with Gt => false | _ => true end.

Definition str_lt (a b : str) : Prop := ltb a b = true.

End Str.

Import Str.

(** ** What the interpreter and [os.path] provide

    [str.lower()] follows the Unicode case tables and [os.path.abspath]
    the working directory; neither is part of the script.  They are taken
    as an interface with the laws the library documents: on ASCII text
    [lower] is the ASCII lowering, lowering twice is lowering once, and
    [abspath] yields a path that starts at the root. *)
Definition isabs (p : str) : bool := startswith p (lit "/").

Class PyRuntime := {
  lower : str -> str;
  abspath : str -> str;
  lower_ascii : forall s,
    forallb is_ascii s = true -> lower s = List.map ascii_lower_cp s;
  lower_idem : forall s, lower (lower s) = lower s;
  abspath_isabs : forall p, isabs (abspath p) = true
}.

(** A runtime to evaluate the script with: ASCII lowering, working
    directory [/]. *)
Definition posix_ascii : PyRuntime.
Proof.
  refine {| lower := List.map ascii_lower_cp;
            abspath := fun p => if isabs p then p else lit "/" ++ p |}.
  - reflexivity.
  - intros s. rewrite List.map_map. apply List.map_ext. intros c.
    unfold ascii_lower_cp.
    destruct ((65 <=? c) && (c <=? 90)) eqn:E; [|by rewrite E].
    apply andb_true_iff in E as [E1 E2]. apply N.leb_le in E1, E2.
    replace (c + 32 <=? 90) with false by (symmetry; apply N.leb_gt; lia).
    by rewrite andb_false_r.
  - intros p. destruct (isabs p) eqn:E; [done | reflexivity].
Defined.

(** ** Exceptions, the error stream, and the monad *)

Inductive exn :=
| IndexError
| KeyError (key : str)
| FileNotFoundError (msg : str)
| RuntimeError (msg : str)
| AttributeError
| LibraryError (code : N).

Inductive result (A : Type) :=
| Ok (a : A)
| Raise (e : exn).
Arguments Ok {A} a.
Arguments Raise {A} e.

(** Lines printed with [file=sys.stderr]; the interpolated values are kept
    as data. *)
Inductive Msg :=
| WarnMultiple (name : str) (candidates : list str)
| WarnDefault (name : str) (key : str)
| WarnUsing (name : str) (first : str)
| InfoDevice (device : str) (voice_file : str)
| InfoFlashFailed (e : exn).

(** ** External collaborators *)

Inductive Device := cuda | mps | cpu.
Inductive Dtype := bfloat16 | float32.
Inductive Attn := flash_attention_2 | sdpa.

Definition device_name (d : Device) : str :=
  match d with cuda => lit "cuda" | mps => lit "mps" | cpu => lit "cpu" end.

(** Keyword arguments of [from_pretrained]; [device_map = None] is [None]. *)
Record LoadArgs := {
  torch_dtype : Dtype;
  device_map : option Device;
  attn_implementation : Attn
}.

(** [outputs.speech_outputs[0]]: only [shape[-1]] is read by the script. *)
Record Waveform := { samples : N }.
Record Outputs := { speech_outputs : list (option Waveform) }.

(** Calls that leave the script.  The guidance scale is a float that is
    only handed on; it is kept as a fraction (1.5 is [(3, 2)]). *)
Inductive Event :=
| ImportVibeVoice
| ProcessorFromPretrained
| ModelFromPretrained (a : LoadArgs)
| ModelTo (d : Device)
| ModelEval
| SetDdpmInferenceSteps (n : N)
| TorchLoad (path : str) (d : Device)
| ProcessInput (text : str)
| TensorsTo (d : Device)
| ModelGenerate (cfg_scale : Z * Z)
| Makedirs (dir : str)
| NamedTemporaryFile
| SaveAudio (w : Waveform) (path : str)
| SubprocessRun (cmd : list str)
| Unlink (path : str).

(** How the world answers: whether a call raises, what it does to the set
    of existing files, and the values the script reads back.  [VOICES_DIR]
    is computed from [__file__] when the module is loaded. *)
Record World := {
  VOICES_DIR : str;
  cuda_is_available : bool;
  mps_is_available : bool;
  voices_dir_exists : bool;
  glob_pt : list str;
  outcome : Event -> result unit;
  effect : Event -> gset str -> gset str;
  generated : Outputs;
  tmp_name : str;
  returncode : list str -> Z;
  run_stderr : list str -> str
}.

Record State := {
  stderr : list Msg;
  calls : list Event;
  files : gset str
}.

Definition M (A : Type) : Type := State -> result A * State.

Definition ret {A} (a : A) : M A := fun s => (Ok a, s).
Definition raise {A} (e : exn) : M A := fun s => (Raise e, s).
Definition bind {A B} (m : M A) (k : A -> M B) : M B :=
  fun s => match m s with
           | (Ok a, s') => k a s'
           | (Raise e, s') => (Raise e, s')
           end.
Definition lift {A} (r : result A) : M A := fun s => (r, s).

Notation "'let*' x ':=' m 'in' k" := (bind m (fun x => k))
  (at level 10, x name, m at level 100, k at level 200).
Notation "m ';;;' k" := (bind m (fun _ => k))
  (at level 100, k at level 200, right associativity).

(** [print(..., file=sys.stderr)] *)
Definition printed (m : Msg) (s : State) : State :=
  {| stderr := stderr s ++ [m]; calls := calls s; files := files s |}.
Definition print (m : Msg) : M unit := fun s => (Ok tt, printed m s).

(** A call into a library or the system: logged, applied to the files,
    then returning or raising as the world says. *)
Definition call (w : World) (ev : Event) : M unit :=
  fun s => (outcome w ev,
            {| stderr := stderr s; calls := calls s ++ [ev];
               files := effect w ev (files s) |}).

(** [try: body  except Exception as e: handler e] *)
Definition try_except {A} (body : M A) (handler : exn -> M A) : M A :=
  fun s => match body s with
           | (Raise e, s') => handler e s'
           | r => r
           end.

(** [try: body  finally: fin] *)
Definition try_finally {A} (body : M A) (fin : M unit) : M A :=
  fun s => match body s with
           | (r, s') =>
               match fin s' with
               | (Ok _, s'') => (r, s'')
               | (Raise e, s'') => (Raise e, s'')
               end
           end.

(** ** Lists and dicts *)

(** [l[i]], negative indices counting from the end. *)
Definition list_getitem {A} (l : list A) (i : Z) : result A :=
  let n := Z.of_nat (length l) in
  let j := if (i <? 0)%Z then (i + n)%Z else i in
  if ((0 <=? j) && (j <? n))%Z then
    match nth_error l (Z.to_nat j) with
    | Some a => Ok a
    | None => Raise IndexError
    end
  else Raise IndexError.

Definition dict := list (str * str).

(** [k in d] *)
Definition dict_contains (d : dict) (k : str) : bool :=
  existsb (fun kv => str_eqb k (fst kv)) d.

(** [d[k]] *)
Fixpoint dict_getitem (d : dict) (k : str) : result str :=
  match d with
  | [] => Raise (KeyError k)
  | (k', v) :: d' => if str_eqb k k' then Ok v else dict_getitem d' k
  end.

(** [d[k] = v]: an existing key keeps its place. *)
Fixpoint dict_setitem (d : dict) (k v : str) : dict :=
  match d with
  | [] => [(k, v)]
  | (k', v') :: d' =>
      if str_eqb k k' then (k', v) :: d' else (k', v') :: dict_setitem d' k v
  end.

(** [<=] on [(key, value)] tuples, as [sorted] compares them. *)
Definition item_leb (a b : str * str) : bool :=
  match compare (fst a) (fst b) with
  | Lt => true
  | Gt => false
  | Eq => leb (snd a) (snd b)
  end.

Definition item_le (a b : str * str) : Prop := Is_true (item_leb a b).

(** [sorted(items)]: a stable merge sort. *)
Definition sorted (items : dict) : dict := merge_sort item_le items.

(** ** [os.path] on POSIX *)

(** [s.rfind(c)]: index of the last [c], [-1] when there is none. *)
Fixpoint rfind_from (c : N) (s : str) (i : Z) (found : Z) : Z :=
  match s with
  | [] => found
  | x :: s' => rfind_from c s' (i + 1)%Z (if x =? c then i else found)
  end.
Definition rfind (c : N) (s : str) : Z := rfind_from c s 0%Z (-1)%Z.

(** [s[i:j]] for [0 <= i], [0 <= j]. *)
Definition slice (s : str) (i j : Z) : str :=
  firstn (Z.to_nat j - Z.to_nat i) (skipn (Z.to_nat i) s).

Definition basename (p : str) : str :=
  skipn (Z.to_nat (rfind 47 p + 1)) p.

(** [os.path.splitext(p)[0]] *)
Definition splitext_root (p : str) : str :=
  let sepIndex := rfind 47 p in
  let dotIndex := rfind 46 p in
  if (sepIndex <? dotIndex)%Z then
    if existsb (fun c => negb (c =? 46)) (slice p (sepIndex + 1) dotIndex)
    then firstn (Z.to_nat dotIndex) p
    else p
  else p.

(** [s.rstrip(chr(c))] *)
Fixpoint lstrip_cp (c : N) (s : str) : str :=
  match s with
  | [] => []
  | x :: s' => if x =? c then lstrip_cp c s' else s
  end.
Definition rstrip_cp (c : N) (s : str) : str := rev (lstrip_cp c (rev s)).

(** [os.path.dirname(p)] *)
Definition dirname (p : str) : str :=
  let head := firstn (Z.to_nat (rfind 47 p + 1)) p in
  if negb (bool_decide (head = [])) && negb (forallb (fun c => c =? 47) head)
  then rstrip_cp 47 head
  else head.

(** ** The script *)
Section Script.
Context {R : PyRuntime}.

(** Body of the [for pt_file in glob.glob(...)] loop. *)
Fixpoint scan (pt_files : list str) (voices : dict) : dict :=
  match pt_files with
  | [] => voices
  | pt_file :: rest =>
      let name := lower (splitext_root (basename pt_file)) in
      scan rest (dict_setitem voices name (abspath pt_file))
  end.

Definition discover_voices (w : World) : dict :=
  let voices := [] in
  if negb (voices_dir_exists w) then voices
  else sorted (scan (glob_pt w) voices).

(** [key.split("_")[0]] and [base.split("-")[-1] if "-" in base else base],
    as values. *)
Definition base_of (key : str) : str := hd [] (split 95 key).
Definition short_of (base : str) : str :=
  if contains base (lit "-") then List.last (split 45 base) [] else base.
Definition convenience_hit (lower : str) (kp : str * str) : bool :=
  str_eqb lower (short_of (base_of (fst kp))) || str_eqb lower (base_of (fst kp)).

(** The convenience loop: [Some path] when it returned from the function. *)
Fixpoint convenience (lower : str) (items : dict) : result (option str) :=
  match items with
  | [] => Ok None
  | (key, path) :: rest =>
      match list_getitem (split 95 key) 0 with
      | Raise e => Raise e
      | Ok base =>
          match (if contains base (lit "-")
                 then list_getitem (split 45 base) (-1)
                 else Ok base) with
          | Raise e => Raise e
          | Ok short =>
              if str_eqb lower short || str_eqb lower base
              then Ok (Some path)
              else convenience lower rest
          end
      end
  end.

(** The test of the [matches] comprehension. *)
Definition partial_hit (lower : str) (kp : str * str) : bool :=
  contains (fst kp) lower || contains lower (fst kp).

(** The [for k, p in voices.items(): if k.startswith("en-")] loop. *)
Fixpoint first_english (items : dict) : option (str * str) :=
  match items with
  | [] => None
  | (k, p) :: rest =>
      if startswith k (lit "en-") then Some (k, p) else first_english rest
  end.

Definition resolve_voice (name : str) (voices : dict) : M str :=
  let lower := strip (lower name) in
  if dict_contains voices lower then lift (dict_getitem voices lower)
  else
    let* found := lift (convenience lower voices) in
    match found with
    | Some path => ret path
    | None =>
        let matches :=
          List.filter (partial_hit lower) voices in
        if (length matches =? 1)%nat then
          let* m := lift (list_getitem matches 0) in ret (snd m)
        else if (1 <? length matches)%nat then
          print (WarnMultiple name (List.map fst matches)) ;;;
          let* m := lift (list_getitem matches 0) in ret (snd m)
        else
          match first_english voices with
          | Some (k, p) => print (WarnDefault name k) ;;; ret p
          | None =>
              let* first := lift (list_getitem (List.map snd voices) 0) in
              print (WarnUsing name first) ;;;
              ret first
          end
    end.

(** The dict returned by [generate], as far as it is represented: its
    entries [duration_seconds], [generation_seconds] and [rtf] are floats
    computed from the clock and the sample count and have no field here. *)
Record Metadata := {
  output_path : str;
  format : str;
  voice : str;
  device : str
}.

(** [subprocess.run(cmd, capture_output=True, text=True)] followed by the
    test of the return code. *)
Definition ffmpeg_cmd (wav_path ogg_path : str) : list str :=
  [lit "ffmpeg"; lit "-y"; lit "-i"; wav_path;
   lit "-c:a"; lit "libopus"; lit "-b:a"; lit "64k"; lit "-ar"; lit "48000";
   lit "-ac"; lit "1"; ogg_path].

Definition wav_to_ogg_opus (w : World) (wav_path ogg_path : str) : M unit :=
  let cmd := ffmpeg_cmd wav_path ogg_path in
  call w (SubprocessRun cmd) ;;;
  if negb (returncode w cmd =? 0)%Z
  then raise (RuntimeError
                (lit "ffmpeg conversion failed: " ++ firstn 500 (run_stderr w cmd)))
  else ret tt.

(** [with tempfile.NamedTemporaryFile(suffix=".wav", delete=False) as tmp]:
    the file is created and closed, its name is read. *)
Definition named_temporary_file (w : World) : M str :=
  call w NamedTemporaryFile ;;;
  fun s => (Ok (tmp_name w),
            {| stderr := stderr s; calls := calls s;
               files := files s ∪ {[ tmp_name w ]} |}).

(** [os.path.exists(p)] *)
Definition path_exists (p : str) : M bool :=
  fun s => (Ok (bool_decide (p ∈ files s)), s).

(** [os.unlink(p)] of a file the script has created itself. *)
Definition unlink (p : str) : M unit :=
  fun s => (Ok tt,
            {| stderr := stderr s; calls := calls s ++ [Unlink p];
               files := files s ∖ {[ p ]} |}).

(** [outputs.speech_outputs[0]] *)
Definition speech0 (outputs : Outputs) : M (option Waveform) :=
  lift (list_getitem (speech_outputs outputs) 0).

Definition select_device (w : World) : Device * Dtype * Attn :=
  if cuda_is_available w then (cuda, bfloat16, flash_attention_2)
  else if mps_is_available w then (mps, float32, sdpa)
  else (cpu, float32, sdpa).

(** The keyword arguments a device is loaded with: [device_map] is the
    device, except for [mps], which is loaded unmapped and moved. *)
Definition load_args (device : Device) (load_dtype : Dtype) (attn_impl : Attn)
    : LoadArgs :=
  {| torch_dtype := load_dtype;
     device_map := match device with mps => None | d => Some d end;
     attn_implementation := attn_impl |}.

(** The body of the [try] around the model construction. *)
Definition construct_model (w : World) (device : Device) (load_dtype : Dtype)
    (attn_impl : Attn) : M unit :=
    (match device with
     | mps =>
         call w (ModelFromPretrained
                   {| torch_dtype := load_dtype; device_map := None;
                      attn_implementation := attn_impl |}) ;;;
         call w (ModelTo mps)
     | cuda =>
         call w (ModelFromPretrained
                   {| torch_dtype := load_dtype; device_map := Some cuda;
                      attn_implementation := attn_impl |})
     | cpu =>
         call w (ModelFromPretrained
                   {| torch_dtype := load_dtype; device_map := Some cpu;
                      attn_implementation := attn_impl |})
     end).

(** The [try] ... [except Exception as e] around the model construction. *)
Definition load_model (w : World) (device : Device) (load_dtype : Dtype)
    (attn_impl : Attn) : M unit :=
  try_except
    (construct_model w device load_dtype attn_impl)
    (fun e =>
       match attn_impl with
       | flash_attention_2 =>
           print (InfoFlashFailed e) ;;;
           call w (ModelFromPretrained
                     {| torch_dtype := load_dtype;
                        device_map :=
                          match device with mps => None | d => Some d end;
                        attn_implementation := sdpa |}) ;;;
           match device with mps => call w (ModelTo mps) | _ => ret tt end
       | sdpa => raise e
       end).

(** From the post-condition check on the model's outputs to the end. *)
Definition save_output (w : World) (outputs : Outputs)
    (output_path output_format voice_path : str) (device : Device) : M Metadata :=
  let* bad :=
    match speech_outputs outputs with
    | [] => ret true
    | _ => let* o := speech0 outputs in
           ret (match o with None => true | Some _ => false end)
    end in
  if (bad : bool) then raise (RuntimeError (lit "No audio output generated"))
  else
    let* o := speech0 outputs in
    let* audio_samples :=
      match o with
      | Some wv => ret (samples wv)
      | None => raise AttributeError
      end in
    call w (Makedirs (dirname (abspath output_path))) ;;;
    let fmt := lower output_format in
    (if str_eqb fmt (lit "ogg") then
       let* tmp_wav := named_temporary_file w in
       try_finally
         (let* o := speech0 outputs in
          match o with
          | Some wv => call w (SaveAudio wv tmp_wav)
          | None => raise AttributeError
          end ;;;
          wav_to_ogg_opus w tmp_wav output_path)
         (let* ex := path_exists tmp_wav in
          if (ex : bool) then unlink tmp_wav else ret tt)
     else
       let* o := speech0 outputs in
       match o with
       | Some wv => call w (SaveAudio wv output_path)
       | None => raise AttributeError
       end) ;;;
    ret {| output_path := output_path;
           format := fmt;
           voice := basename voice_path;
           device := device_name device |}.

(** The four chained [text.replace(...)] calls. *)
Definition clean_text (text : str) : str :=
  replace 8221 34 (replace 8220 34 (replace 8217 39 (replace 8216 39 text))).

(** From the device probe to the return of [model.generate]: the resolved
    voice path, the device and the model's outputs. *)
Definition synthesize (w : World) (text voice_name : str) (cfg_scale : Z * Z)
    : M (str * Device * Outputs) :=
  call w ImportVibeVoice ;;;
  let '(device, load_dtype, attn_impl) := select_device w in
  let voices := discover_voices w in
  match voices with
  | [] => raise (FileNotFoundError (lit "No voice files found in " ++ VOICES_DIR w))
  | _ =>
      let* voice_path := resolve_voice voice_name voices in
      print (InfoDevice (device_name device) (basename voice_path)) ;;;
      call w ProcessorFromPretrained ;;;
      load_model w device load_dtype attn_impl ;;;
      call w ModelEval ;;;
      call w (SetDdpmInferenceSteps 5) ;;;
      call w (TorchLoad voice_path device) ;;;
      call w (ProcessInput (clean_text text)) ;;;
      call w (TensorsTo device) ;;;
      call w (ModelGenerate cfg_scale) ;;;
      ret (voice_path, device, generated w)
  end.

Definition generate (w : World) (text output_path voice_name : str)
    (cfg_scale : Z * Z) (output_format : str) : M Metadata :=
  let* r := synthesize w text voice_name cfg_scale in
  let '(voice_path, device, outputs) := r in
  save_output w outputs output_path output_format voice_path device.

End Script.

(** The two forms of a key as section 4.2 of the specification words them:
    the base is the key without the segment after its last [_], the short
    form is the base without the language prefix before its [-]. *)
Fixpoint after_first (sep : N) (s : str) : str :=
  match s with
  | [] => []
  | c :: s' => if c =? sep then s' else after_first sep s'
  end.

Definition before_last (sep : N) (s : str) : str :=
  rev (after_first sep (rev s)).

Definition spec_base (key : str) : str :=
  if contains key (lit "_") then before_last 95 key else key.

Definition spec_short (base : str) : str :=
  if contains base (lit "-") then after_first 45 base else base.

Fixpoint occurrences (c : N) (s : str) : nat :=
  match s with
  | [] => 0%nat
  | x :: s' => ((if N.eqb x c then 1 else 0) + occurrences c s')%nat
  end.

(** A key of the shape the voices have, [lang-name_gender]: at most one
    [_] and at most one [-]. *)
Definition simple_key (key : str) : bool :=
  (occurrences 95 key <=? 1)%nat && (occurrences 45 key <=? 1)%nat.

(** ** Concrete inputs *)

Definition s0 : State := {| stderr := []; calls := []; files := ∅ |}.

Definition emma_registry : dict :=
  [(lit "en-emma_woman", lit "/v/en-emma_woman.pt")].

Definition mike_registry (p1 p2 : str) : dict :=
  [(lit "en-mike_man", p1); (lit "en-mikeb_man", p2)].

(** A world in which every call succeeds and touches no file. *)
Definition quiet_world (dir_exists : bool) (pt_files : list str)
    (outs : list (option Waveform)) : World :=
  {| VOICES_DIR := lit "/v";
     cuda_is_available := false;
     mps_is_available := false;
     voices_dir_exists := dir_exists;
     glob_pt := pt_files;
     outcome := fun _ => Ok tt;
     effect := fun _ fs => fs;
     generated := {| speech_outputs := outs |};
     tmp_name := lit "/tmp/tmpa1b2c3.wav";
     returncode := fun _ => 0%Z;
     run_stderr := fun _ => [] |}.

(** A CUDA host on which the fused kernel cannot be loaded. *)
Definition flash_failing_world : World :=
  {| VOICES_DIR := lit "/v";
     cuda_is_available := true;
     mps_is_available := false;
     voices_dir_exists := true;
     glob_pt := [lit "/v/en-Emma_woman.pt"];
     outcome := fun ev =>
       match ev with
       | ModelFromPretrained a =>
           match attn_implementation a with
           | flash_attention_2 => Raise (LibraryError 1)
           | sdpa => Ok tt
           end
       | _ => Ok tt
       end;
     effect := fun _ fs => fs;
     generated := {| speech_outputs := [Some {| samples := 48000 |}] |};
     tmp_name := lit "/tmp/tmpa1b2c3.wav";
     returncode := fun _ => 0%Z;
     run_stderr := fun _ => [] |}.

(** A host on which ffmpeg exits with status 1. *)
Definition failing_encoder_world : World :=
  {| VOICES_DIR := lit "/v";
     cuda_is_available := false;
     mps_is_available := false;
     voices_dir_exists := true;
     glob_pt := [lit "/v/en-Emma_woman.pt"];
     outcome := fun _ => Ok tt;
     effect := fun _ fs => fs;
     generated := {| speech_outputs := [Some {| samples := 48000 |}] |};
     tmp_name := lit "/tmp/tmpa1b2c3.wav";
     returncode := fun _ => 1%Z;
     run_stderr := fun _ => lit "Unknown encoder 'libopus'" |}.

(** Two voice files whose stems differ by a leading blank. *)
Definition blank_world : World :=
  quiet_world true [lit "/v/ emma.pt"; lit "/v/emma.pt"] [].

(** The substitution of section 4.3 of the specification, per character:
    each of the four typographic quotes becomes its ASCII counterpart and
    every other character is kept. *)
Definition spec_quote (c : N) : N :=
  if c =? 8216 then 39
  else if c =? 8217 then 39
  else if c =? 8220 then 34
  else if c =? 8221 then 34
  else c.

(** ** The command line *)
Section CommandLine.
Context {R : PyRuntime}.

(** The registry key of a voice file: the lowered stem of its name. *)
Definition voice_key (pt_file : str) : str :=
  lower (splitext_root (basename pt_file)).

(** What [parser.parse_args()] returns.  [arg_format] is restricted by
    [choices=["wav", "ogg"]]. *)
Record Args := {
  arg_text : str;
  arg_output : str;
  arg_voice : str;
  arg_format : str;
  arg_cfg_scale : Z * Z;
  arg_list_voices : bool
}.


(** Lines printed to standard output: a voice name, or the metadata as
    [json.dumps] receives it. *)
Inductive Stdout :=
| OutName (name : str)
| OutJson (result : Metadata).

(** [main] after the arguments are parsed; the value is what it has
    printed to standard output. *)
Definition main (w : World) (args : Args) : M (list Stdout) :=
  if arg_list_voices args then
    let voices := discover_voices w in
    ret (List.map (fun kv => OutName (fst kv)) voices)
  else
    let* result :=
      generate w (arg_text args) (arg_output args) (arg_voice args)
               (arg_cfg_scale args) (arg_format args) in
    ret [OutJson result].

End CommandLine.

(** Command lines: [--text Hello --output /tmp/hello.wav] and the same
    with [--list-voices]. *)
Definition hello_args (list_voices : bool) : Args :=
  {| arg_text := lit "Hello";
     arg_output := lit "/tmp/hello.wav";
     arg_voice := lit "Emma";
     arg_format := lit "wav";
     arg_cfg_scale := (3, 2)%Z;
     arg_list_voices := list_voices |}.

(** A registry without any English voice. *)
Definition foreign_registry : dict :=
  [(lit "de-spk0_man", lit "/v/de-Spk0_man.pt");
   (lit "fr-spk1_woman", lit "/v/fr-Spk1_woman.pt")].

(** ** Predicates on runs *)

(** A run only appends calls, each of them satisfying [P], and a value it
    returns satisfies [Q]. *)
Definition logs {A} (P : Event -> Prop) (Q : A -> Prop) (m : M A) : Prop :=
  forall s r s',
    m s = (r, s') ->
    (exists l, calls s' = calls s ++ l /\ Forall P l)
    /\ (forall a, r = Ok a -> Q a).

Definition is_construction (ev : Event) : bool :=
  match ev with ModelFromPretrained _ => true | _ => false end.

(** The files a call may name: the temporary file is the only one ever
    deleted, audio is written to the temporary file or to the output path,
    and the only process run is ffmpeg from the one to the other. *)
Definition touches_only (w : World) (output_path : str) (ev : Event) : Prop :=
  match ev with
  | Unlink p => p = tmp_name w
  | SaveAudio _ p => p = tmp_name w \/ p = output_path
  | SubprocessRun cmd => cmd = ffmpeg_cmd (tmp_name w) output_path
  | _ => True
  end.

(** No temporary file, no encoder, no deletion. *)
Definition direct_only (ev : Event) : Prop :=
  match ev with
  | NamedTemporaryFile | SubprocessRun _ | Unlink _ => False
  | _ => True
  end.

(** ** What the pipeline may call *)
Section Pipeline.
Context {R : PyRuntime}.

Definition selected_device (w : World) : Device := fst (fst (select_device w)).
Definition selected_dtype (w : World) : Dtype := snd (fst (select_device w)).

(** The calls of one run of [generate], each with the arguments it must
    carry: the model is built with the selected precision and device map
    and fed the normalised text and a voice of the registry; audio goes to
    the temporary file when the format is [ogg] and to the output path
    otherwise; the encoder and the deletion belong to [ogg] alone. *)
Definition pipeline_call (w : World) (text out fmt : str) (cfg : Z * Z)
    (ev : Event) : Prop :=
  let dev := selected_device w in
  let ogg := str_eqb (lower fmt) (lit "ogg") in
  match ev with
  | ImportVibeVoice | ProcessorFromPretrained | ModelEval => True
  | ModelFromPretrained a =>
      torch_dtype a = selected_dtype w
      /\ device_map a = match dev with mps => None | d => Some d end
  | ModelTo d => d = mps /\ dev = mps
  | SetDdpmInferenceSteps n => n = 5
  | TorchLoad p d => d = dev /\ exists k, In (k, p) (discover_voices w)
  | ProcessInput t => t = clean_text text
  | TensorsTo d => d = dev
  | ModelGenerate c => c = cfg
  | Makedirs d => d = dirname (abspath out)
  | NamedTemporaryFile => ogg = true
  | SaveAudio wv p =>
      (exists rest, speech_outputs (generated w) = Some wv :: rest)
      /\ p = (if ogg then tmp_name w else out)
  | SubprocessRun cmd => ogg = true /\ cmd = ffmpeg_cmd (tmp_name w) out
  | Unlink p => ogg = true /\ p = tmp_name w
  end.


(** The entries [output_path], [format], [device] and [voice] of the dict
    of a successful run. *)
Definition describes (w : World) (out fmt : str) (m : Metadata) : Prop :=
  output_path m = out
  /\ format m = lower fmt
  /\ device m = device_name (selected_device w)
  /\ (exists k p, In (k, p) (discover_voices w) /\ voice m = basename p).

End Pipeline.

(** * Properties *)

(** ** Indexing *)

Lemma list_getitem_0 {A} (a : A) l : list_getitem (a :: l) 0 = Ok a.
Proof.
  unfold list_getitem. cbn [length].
  replace (0 <? 0)%Z with false by done.
  replace ((0 <=? 0) && (0 <? Z.of_nat (S (length l))))%Z with true; [done|].
  symmetry. apply andb_true_iff. split; [done | apply Z.ltb_lt; lia].
Qed.

Lemma last_cons_default {A} (a d d' : A) l :
  List.last (a :: l) d = List.last (a :: l) d'.
Proof. revert a. induction l as [|b l IH]; intros a; [done|]. apply (IH b). Qed.

Lemma nth_error_pred_length {A} (a : A) l :
  nth_error (a :: l) (length l) = Some (List.last (a :: l) a).
Proof.
  revert a. induction l as [|b l IH]; intros a; [done|].
  cbn [length nth_error]. rewrite IH. f_equal.
  change (List.last (a :: b :: l) a) with (List.last (b :: l) a).
  apply last_cons_default.
Qed.

Lemma list_getitem_last {A} (a : A) l :
  list_getitem (a :: l) (-1) = Ok (List.last (a :: l) a).
Proof.
  unfold list_getitem.
  replace (-1 <? 0)%Z with true by done.
  replace (-1 + Z.of_nat (length (a :: l)))%Z with (Z.of_nat (length l))
    by (cbn [length]; lia).
  replace ((0 <=? Z.of_nat (length l)) &&
           (Z.of_nat (length l) <? Z.of_nat (length (a :: l))))%Z with true.
  - by rewrite Nat2Z.id, nth_error_pred_length.
  - symmetry. apply andb_true_iff. split; [apply Z.leb_le | apply Z.ltb_lt];
      cbn [length]; lia.
Qed.

Lemma list_getitem_nil {A} (i : Z) : list_getitem (@nil A) i = Raise IndexError.
Proof.
  unfold list_getitem. change (Z.of_nat (length (@nil A))) with 0%Z.
  destruct (_ && _) eqn:F; [|done].
  apply andb_true_iff in F as [F1%Z.leb_le F2%Z.ltb_lt].
  destruct (i <? 0)%Z eqn:E; [apply Z.ltb_lt in E | apply Z.ltb_ge in E]; lia.
Qed.

(** ** Strings *)

Lemma str_eqb_eq a b : str_eqb a b = true <-> a = b.
Proof. unfold str_eqb. by rewrite bool_decide_eq_true. Qed.

Lemma str_eqb_refl a : str_eqb a a = true.
Proof. by apply str_eqb_eq. Qed.

Lemma split_cons sep s : exists w ws, split sep s = w :: ws.
Proof.
  induction s as [|c s [w [ws IH]]]; cbn [split]; [by eauto|].
  destruct (c =? sep); [by eauto|]. rewrite IH. eauto.
Qed.

(** ** Dicts *)

Lemma dict_getitem_contains (d : dict) k :
  dict_contains d k = true -> exists v, dict_getitem d k = Ok v /\ In (k, v) d.
Proof.
  induction d as [|[k' v'] d IH]; cbn; [done|].
  destruct (str_eqb k k') eqn:E.
  - apply str_eqb_eq in E as ->. eauto.
  - cbn. intros [v [-> ?]]%IH. eauto.
Qed.

Lemma dict_getitem_Ok (d : dict) k v :
  dict_getitem d k = Ok v -> dict_contains d k = true.
Proof.
  induction d as [|[k' v'] d IH]; cbn; [done|].
  destruct (str_eqb k k'); [done|]. cbn. auto.
Qed.

(** ** The convenience loop *)

Lemma getitem_base key : list_getitem (split 95 key) 0 = Ok (base_of key).
Proof.
  unfold base_of. destruct (split_cons 95 key) as [w [ws ->]].
  apply list_getitem_0.
Qed.

Lemma getitem_short base :
  (if contains base (lit "-") then list_getitem (split 45 base) (-1) else Ok base)
  = Ok (short_of base).
Proof.
  unfold short_of. destruct (contains base (lit "-")); [|done].
  destruct (split_cons 45 base) as [w [ws ->]].
  rewrite list_getitem_last. f_equal. apply last_cons_default.
Qed.

Lemma convenience_find lower items :
  convenience lower items
  = Ok (option_map snd (List.find (convenience_hit lower) items)).
Proof.
  induction items as [|[key path] items IH]; [done|].
  cbn [convenience List.find]. rewrite getitem_base, getitem_short.
  unfold convenience_hit at 1. cbn [fst].
  by destruct (_ || _).
Qed.

Lemma find_some_snd {A B} (f : A * B -> bool) l kp :
  List.find f l = Some kp -> In (snd kp) (List.map snd l).
Proof.
  intros [H _]%List.find_some. apply List.in_map_iff. eauto.
Qed.

Lemma first_english_In items k p :
  first_english items = Some (k, p) ->
  In (k, p) items /\ startswith k (lit "en-") = true.
Proof.
  induction items as [|[k' p'] items IH]; cbn [first_english]; [done|].
  destruct (startswith k' (lit "en-")) eqn:E.
  - intros [= -> ->]. split; [by left | done].
  - intros [? ?]%IH. split; [by right | done].
Qed.

(** ** [resolve_voice], step by step *)
Section Resolve.
Context {R : PyRuntime}.

(** The four steps of the function as one case analysis. *)
Lemma resolve_voice_steps name voices s :
  resolve_voice name voices s =
  let l := strip (lower name) in
  if dict_contains voices l then (dict_getitem voices l, s)
  else match List.find (convenience_hit l) voices with
       | Some kp => (Ok (snd kp), s)
       | None =>
           match List.filter (partial_hit l) voices with
           | [m] => (Ok (snd m), s)
           | m :: m' :: ms =>
               (Ok (snd m), printed (WarnMultiple name (List.map fst (m :: m' :: ms))) s)
           | [] =>
               match first_english voices with
               | Some (k, p) => (Ok p, printed (WarnDefault name k) s)
               | None =>
                   match voices with
                   | [] => (Raise IndexError, s)
                   | (k, p) :: _ => (Ok p, printed (WarnUsing name p) s)
                   end
               end
           end
       end.
Proof.
  unfold resolve_voice. cbv zeta.
  destruct (dict_contains voices _); [done|].
  unfold bind at 1, lift at 1. rewrite convenience_find.
  destruct (List.find _ voices) as [kp|]; [done|]. cbn [option_map].
  destruct (List.filter _ voices) as [|m [|m' ms]].
  - cbn [length Nat.eqb Nat.ltb Nat.leb].
    destruct (first_english voices) as [[k p]|]; [done|].
    destruct voices as [|[k p] voices].
    + unfold bind, lift. cbn [List.map]. by rewrite list_getitem_nil.
    + unfold bind, lift. cbn [List.map snd]. by rewrite list_getitem_0.
  - cbn [length Nat.eqb]. unfold bind, lift. by rewrite list_getitem_0.
  - cbn [length Nat.eqb Nat.ltb Nat.leb]. unfold bind, lift, print.
    by rewrite list_getitem_0.
Qed.

End Resolve.

Section ResolveClaims.
Context {R : PyRuntime}.

(** On a non-empty registry no step raises. *)
Lemma resolve_voice_no_raise (name : str) (voices : dict) (s : State) :
  voices <> [] ->
  exists p s', resolve_voice name voices s = (Ok p, s').
Proof.
  intros Hne. rewrite resolve_voice_steps. cbv zeta.
  destruct (dict_contains voices _) eqn:Hc;
    [apply dict_getitem_contains in Hc as [v [-> _]]; by eauto|].
  destruct (List.find _ voices); [by eauto|].
  destruct (List.filter _ voices) as [|m [|m' ms]]; [|by eauto..].
  destruct (first_english voices) as [[k p]|]; [by eauto|].
  destruct voices as [|[k p] voices]; [done | by eauto].
Qed.

(** C1: for a non-empty registry and any input name, [resolve_voice]
    returns (it raises nothing) and the path it returns is one of the
    registry's values. *)
Theorem resolve_voice_in_registry (name : str) (voices : dict) (s : State) :
  voices <> [] ->
  exists p s', resolve_voice name voices s = (Ok p, s')
               /\ In p (List.map snd voices).
Proof.
  intros Hne. rewrite resolve_voice_steps. cbv zeta.
  destruct (dict_contains voices _) eqn:Hc.
  { apply dict_getitem_contains in Hc as [v [-> Hin]].
    exists v, s. split; [done|]. apply List.in_map_iff. by exists (strip (lower name), v). }
  destruct (List.find _ voices) as [kp|] eqn:Hf.
  { exists (snd kp), s. split; [done|]. by eapply find_some_snd. }
  destruct (List.filter _ voices) as [|m [|m' ms]] eqn:Hm.
  - destruct (first_english voices) as [[k p]|] eqn:He.
    + apply first_english_In in He as [Hin _].
      eexists _, _. split; [done|]. apply List.in_map_iff. by exists (k, p).
    + destruct voices as [|[k p] voices]; [done|].
      eexists _, _. split; [done|]. by left.
  - assert (In m (List.filter (partial_hit (strip (lower name))) voices)) as Hin
      by (rewrite Hm; by left).
    apply List.filter_In in Hin as [Hin _].
    eexists _, _. split; [done|]. apply List.in_map_iff. by exists m.
  - assert (In m (List.filter (partial_hit (strip (lower name))) voices)) as Hin
      by (rewrite Hm; by left).
    apply List.filter_In in Hin as [Hin _].
    eexists _, _. split; [done|]. apply List.in_map_iff. by exists m.
Qed.

End ResolveClaims.

(** [Emma] against the registry of [en-emma_woman]. *)
Lemma resolve_voice_in_registry_witness :
  emma_registry <> @nil (str * str) /\
  exists p s', @resolve_voice posix_ascii (lit "Emma") emma_registry s0 = (Ok p, s')
               /\ In p (List.map snd emma_registry).
Proof.
  assert (emma_registry <> @nil (str * str)) as H by done.
  split; [exact H|].
  exact (@resolve_voice_in_registry posix_ascii (lit "Emma") emma_registry s0 H).
Defined.

(** ** The forms compared by the convenience loop *)

(** The first piece stops at the first separator. *)
Lemma split_hd_spec sep s :
  ~ In sep (hd [] (split sep s))
  /\ (s = hd [] (split sep s)
      \/ exists rest, s = hd [] (split sep s) ++ sep :: rest).
Proof.
  induction s as [|c s [IH1 IH2]]; [by split; [intros []|left]|].
  cbn [split]. destruct (N.eqb_spec c sep) as [->|Hc].
  - split; [intros []|]. right. by exists s.
  - destruct (split_cons sep s) as [w [ws E]]. rewrite E in IH1, IH2 |- *.
    cbn [hd] in *. split.
    + intros [?|?]; [by apply Hc | by apply IH1].
    + destruct IH2 as [->|[rest ->]]; [by left|]. right. by exists rest.
Qed.

(** The last piece starts after the last separator. *)
Lemma split_last_spec sep s :
  exists init L,
    split sep s = init ++ [L] /\ ~ In sep L
    /\ ((init = [] /\ s = L) \/ (init <> [] /\ exists pre, s = pre ++ sep :: L)).
Proof.
  induction s as [|c s (init & L & E & Hn & IH)].
  { exists [], []. split; [done|]. split; [intros []|]. by left. }
  cbn [split]. rewrite E. destruct (N.eqb_spec c sep) as [->|Hc].
  - exists ([] :: init), L. split; [done|]. split; [done|]. right.
    split; [done|]. destruct IH as [[_ ->]|[_ [pre ->]]].
    + by exists [].
    + by exists (sep :: pre).
  - destruct init as [|w init]; cbn [app].
    + exists [], (c :: L). split; [done|]. split.
      * intros [?|?]; [by apply Hc | by apply Hn].
      * left. destruct IH as [[_ ->]|[? _]]; done.
    + exists ((c :: w) :: init), L. split; [done|]. split; [done|]. right.
      split; [done|]. destruct IH as [[? _]|[_ [pre ->]]]; [done|].
      by exists (c :: pre).
Qed.

Lemma contains_singleton c s : contains s [c] = true <-> In c s.
Proof.
  induction s as [|x s IH]; cbn [contains startswith In].
  - split; [done | intros []].
  - rewrite orb_true_iff, andb_true_r, IH, N.eqb_eq.
    split; intros [->|?]; auto.
Qed.

Lemma base_of_spec key :
  ~ In 95 (base_of key)
  /\ (key = base_of key \/ exists rest, key = base_of key ++ 95 :: rest).
Proof. apply split_hd_spec. Qed.

Lemma short_of_spec base :
  ~ In 45 (short_of base)
  /\ (base = short_of base \/ exists pre, base = pre ++ 45 :: short_of base).
Proof.
  unfold short_of. destruct (contains base (lit "-")) eqn:E.
  - destruct (split_last_spec 45 base) as (init & L & -> & Hn & H).
    rewrite List.last_last. split; [done|].
    destruct H as [[_ ->]|[_ [pre ->]]]; [by left | right; by exists pre].
  - split; [|by left]. intros Hin%contains_singleton.
    change (contains base (lit "-")) with (contains base [45]) in E. congruence.
Qed.

Lemma find_first {A} (f : A -> bool) pre x post :
  Forall (fun y => f y = false) pre -> f x = true ->
  List.find f (pre ++ x :: post) = Some x.
Proof.
  induction 1 as [|y pre Hy _ IH]; intros Hx; cbn [app List.find].
  - by rewrite Hx.
  - rewrite Hy. auto.
Qed.

Lemma dict_getitem_NoDup (d : dict) k v :
  NoDup (List.map fst d) -> In (k, v) d -> dict_getitem d k = Ok v.
Proof.
  induction d as [|[k' v'] d IH]; [intros _ []|].
  cbn [List.map fst dict_getitem]. intros Hnd [[= -> ->]|Hin].
  - by rewrite str_eqb_refl.
  - apply NoDup_cons in Hnd as [Hk Hnd].
    destruct (str_eqb k k') eqn:E; [|auto].
    apply str_eqb_eq in E as ->. destruct Hk.
    apply list_elem_of_In, List.in_map_iff. by exists (k', v).
Qed.

(** ** The forms of a key of the usual shape *)

Lemma occurrences_app c a b :
  occurrences c (a ++ b) = (occurrences c a + occurrences c b)%nat.
Proof.
  induction a as [|x a IH]; [done|]. cbn [app occurrences]. rewrite IH. lia.
Qed.

Lemma occurrences_absent c s : occurrences c s = 0%nat -> ~ In c s.
Proof.
  induction s as [|x s IH]; [by intros _ []|]. cbn [occurrences].
  destruct (N.eqb_spec x c) as [->|Hx]; [done|].
  intros H [?|?]; [done|]. by apply IH.
Qed.

Lemma occurrences_once c a b :
  (occurrences c (a ++ c :: b) <= 1)%nat -> ~ In c a /\ ~ In c b.
Proof.
  rewrite occurrences_app. cbn [occurrences]. rewrite N.eqb_refl.
  intros H. split; apply occurrences_absent; lia.
Qed.

Lemma after_first_app sep a b :
  ~ In sep a -> after_first sep (a ++ sep :: b) = b.
Proof.
  induction a as [|x a IH]; intros Hn; cbn [app after_first].
  - by rewrite N.eqb_refl.
  - destruct (N.eqb_spec x sep) as [->|_]; [destruct Hn; by left|].
    apply IH. intros ?. apply Hn. by right.
Qed.

Lemma base_of_simple key :
  (occurrences 95 key <= 1)%nat -> base_of key = spec_base key.
Proof.
  intros Hocc. unfold spec_base. change (lit "_") with [95].
  destruct (base_of_spec key) as [Hn E]. revert Hn E.
  generalize (base_of key) as b. intros b Hn [->|[rest ->]].
  - assert (contains b [95] = false) as ->
      by (apply not_true_iff_false; by intros ?%contains_singleton).
    done.
  - apply occurrences_once in Hocc as [_ Hrest].
    rewrite (proj2 (contains_singleton 95 _)) by (apply in_or_app; right; by left).
    unfold before_last. rewrite rev_app_distr. cbn [rev]. rewrite <- app_assoc.
    cbn [app]. rewrite after_first_app by (by intros ?%in_rev).
    by rewrite rev_involutive.
Qed.

Lemma short_of_simple base :
  (occurrences 45 base <= 1)%nat -> short_of base = spec_short base.
Proof.
  intros Hocc. unfold spec_short. change (lit "-") with [45].
  destruct (short_of_spec base) as [Hn E]. revert Hn E.
  generalize (short_of base) as sh. intros sh Hn [->|[pre ->]].
  - assert (contains sh [45] = false) as ->
      by (apply not_true_iff_false; by intros ?%contains_singleton).
    done.
  - apply occurrences_once in Hocc as [Hpre _].
    rewrite (proj2 (contains_singleton 45 _)) by (apply in_or_app; right; by left).
    by rewrite after_first_app.
Qed.

(** On a key with at most one [_] and one [-] the loop computes the forms
    of the specification. *)
Lemma forms_agree key :
  simple_key key = true ->
  base_of key = spec_base key
  /\ short_of (base_of key) = spec_short (spec_base key).
Proof.
  intros [H1%Nat.leb_le H2%Nat.leb_le]%andb_true_iff.
  pose proof (base_of_simple key H1) as Hb. split; [done|].
  rewrite <- Hb. apply short_of_simple.
  destruct (base_of_spec key) as [_ [E|[rest E]]]; rewrite E in H2;
    [done|]. rewrite occurrences_app in H2. lia.
Qed.

Section ResolveSteps.
Context {R : PyRuntime}.

(** ASCII inputs are lowered by the ASCII table whatever the runtime. *)
Lemma lower_lit (s : str) :
  forallb is_ascii s = true -> strip (lower s) = strip (List.map ascii_lower_cp s).
Proof. intros H. by rewrite lower_ascii. Qed.

(** C2 (as the code has it): in the registry of [en-mike_man] and
    [en-mikeb_man] the input [mike] is the short form of the first key, so
    it is returned by the convenience step and nothing is printed; both
    keys do contain [mike]; an input that matches only as a substring,
    such as [mik], returns the first entry in sorted order and prints the
    multi-match warning with both candidates. *)
Theorem mike_resolves_by_convenience (p1 p2 : str) (s : State) :
  resolve_voice (lit "mike") (mike_registry p1 p2) s = (Ok p1, s)
  /\ List.find (convenience_hit (lit "mike")) (mike_registry p1 p2)
     = Some (lit "en-mike_man", p1)
  /\ List.filter (partial_hit (lit "mike")) (mike_registry p1 p2)
     = mike_registry p1 p2
  /\ resolve_voice (lit "mik") (mike_registry p1 p2) s
     = (Ok p1,
        printed (WarnMultiple (lit "mik") [lit "en-mike_man"; lit "en-mikeb_man"]) s).
Proof.
  rewrite !resolve_voice_steps. cbv zeta.
  rewrite !lower_lit by reflexivity.
  repeat split; vm_compute; reflexivity.
Qed.

(** C3 (as the code has it): for keys with at most one [_] and one [-],
    where the base is the key without the segment after its [_] and the
    short form is the base without the language prefix before its [-]:
    when the lowered and stripped input is no key of the registry (an
    exact key match comes first), the first entry in iteration order one
    of whose two forms equals it is returned, and nothing is printed.  So
    in a registry with [en-emma_woman] the inputs [Emma], [EMMA] and
    [en-emma] all return its path, when no key is the input itself and no
    earlier entry has that form. *)
Theorem resolve_voice_convenience (name : str) (pre post : dict) (k p : str)
    (s : State) :
  let l := strip (lower name) in
  Forall (fun kv => simple_key (fst kv) = true) (pre ++ [(k, p)]) ->
  dict_contains (pre ++ (k, p) :: post) l = false ->
  Forall (fun kv => l <> spec_base (fst kv)
                    /\ l <> spec_short (spec_base (fst kv))) pre ->
  l = spec_base k \/ l = spec_short (spec_base k) ->
  resolve_voice name (pre ++ (k, p) :: post) s = (Ok p, s)
  /\ (forall n before after,
        In n [lit "Emma"; lit "EMMA"; lit "en-emma"] ->
        Forall (fun kv => simple_key (fst kv) = true) before ->
        dict_contains (before ++ (lit "en-emma_woman", p) :: after)
                      (strip (lower n)) = false ->
        Forall (fun kv => strip (lower n) <> spec_base (fst kv)
                          /\ strip (lower n) <> spec_short (spec_base (fst kv)))
               before ->
        resolve_voice n (before ++ (lit "en-emma_woman", p) :: after) s
        = (Ok p, s)).
Proof.
  assert (forall name pre post k p,
            Forall (fun kv => simple_key (fst kv) = true) (pre ++ [(k, p)]) ->
            dict_contains (pre ++ (k, p) :: post) (strip (lower name)) = false ->
            Forall (fun kv => strip (lower name) <> spec_base (fst kv)
                              /\ strip (lower name)
                                 <> spec_short (spec_base (fst kv))) pre ->
            strip (lower name) = spec_base k
            \/ strip (lower name) = spec_short (spec_base k) ->
            resolve_voice name (pre ++ (k, p) :: post) s = (Ok p, s)) as Hgen.
  { clear. intros name pre post k p [Hsp Hsk]%Forall_app Hc Hpre Hk.
    apply Forall_inv in Hsk. cbn [fst] in Hsk.
    destruct (forms_agree k Hsk) as [Hb Hs].
    rewrite resolve_voice_steps. cbv zeta. rewrite Hc.
    rewrite (find_first _ pre (k, p) post); [done| |].
    - rewrite List.Forall_forall in Hsp, Hpre. apply List.Forall_forall.
      intros [k' p'] Hin. destruct (forms_agree k' (Hsp _ Hin)) as [Hb' Hs'].
      destruct (Hpre _ Hin) as [H1 H2]. cbn [fst] in H1, H2.
      unfold convenience_hit. cbn [fst]. rewrite Hs', Hb'. apply orb_false_iff.
      split; apply not_true_is_false; by intros ?%str_eqb_eq.
    - unfold convenience_hit. cbn [fst]. rewrite Hs, Hb. apply orb_true_iff.
      destruct Hk as [<-|<-]; [right|left]; apply str_eqb_refl. }
  intros l Hsimple Hc Hpre Hk. split; [by apply Hgen|].
  intros n before after Hn Hsb Hcb Hpb. apply Hgen; [|done|done|].
  - apply Forall_app. split; [done|]. by repeat constructor.
  - cbn [In] in Hn. destruct Hn as [<-|[<-|[<-|[]]]];
      (rewrite lower_lit by reflexivity); [right|right|left];
      vm_compute; reflexivity.
Qed.

(** C4 (as the code has it): if the input, lowered and stripped of the
    white space around it, is a key of the registry, that key's path is
    returned and nothing is printed, whatever else the registry holds. *)
Theorem resolve_voice_exact (name : str) (voices : dict) (k p : str) (s : State) :
  NoDup (List.map fst voices) ->
  In (k, p) voices ->
  strip (lower name) = k ->
  resolve_voice name voices s = (Ok p, s).
Proof.
  intros Hnd Hin Hk. rewrite resolve_voice_steps. cbv zeta. rewrite Hk.
  pose proof (dict_getitem_NoDup _ _ _ Hnd Hin) as Hg.
  by rewrite (dict_getitem_Ok _ _ _ Hg), Hg.
Qed.

End ResolveSteps.

(** Resolving [mike] in the two-entry registry prints no warning. *)
Lemma mike_resolves_without_warning :
  let out :=
    @resolve_voice posix_ascii (lit "mike")
      (mike_registry (lit "/v/en-mike_man.pt") (lit "/v/en-mikeb_man.pt")) s0 in
  fst out = Ok (lit "/v/en-mike_man.pt") /\ stderr (snd out) = [].
Proof. split; vm_compute; reflexivity. Qed.

(** An input equal to a form of a key need not return that key's path:
    [Emma] is the short form of [en-emma_woman], but [de-emma_woman], with
    the same short form, comes first in the one registry, and in the other
    the key [emma] is the input itself and is matched before any form. *)
Lemma convenience_first_match_wins :
  lit "emma" = spec_short (spec_base (lit "en-emma_woman"))
  /\ (In (lit "en-emma_woman", lit "/v/en.pt")
         [(lit "de-emma_woman", lit "/v/de.pt"); (lit "en-emma_woman", lit "/v/en.pt")]
      /\ @resolve_voice posix_ascii (lit "Emma")
           [(lit "de-emma_woman", lit "/v/de.pt");
            (lit "en-emma_woman", lit "/v/en.pt")] s0
         = (Ok (lit "/v/de.pt"), s0)
      /\ lit "/v/de.pt" <> lit "/v/en.pt")
  /\ (In (lit "en-emma_woman", lit "/v/en.pt")
         [(lit "emma", lit "/v/emma.pt"); (lit "en-emma_woman", lit "/v/en.pt")]
      /\ @resolve_voice posix_ascii (lit "Emma")
           [(lit "emma", lit "/v/emma.pt");
            (lit "en-emma_woman", lit "/v/en.pt")] s0
         = (Ok (lit "/v/emma.pt"), s0)
      /\ lit "/v/emma.pt" <> lit "/v/en.pt").
Proof.
  split; [vm_compute; reflexivity|].
  split; (split; [right; by left|]); split; vm_compute;
    first [reflexivity | discriminate].
Qed.

(** [Emma] in a registry where one entry precedes [en-emma_woman]. *)
Lemma resolve_voice_convenience_witness :
  @resolve_voice posix_ascii (lit "Emma")
     ([(lit "de-anna_woman", lit "/v/de-anna_woman.pt")]
      ++ (lit "en-emma_woman", lit "/v/en-emma_woman.pt")
      :: [(lit "en-frank_man", lit "/v/en-frank_man.pt")]) s0
  = (Ok (lit "/v/en-emma_woman.pt"), s0).
Proof.
  apply (@resolve_voice_convenience posix_ascii).
  - by repeat constructor.
  - vm_compute; reflexivity.
  - constructor; [|constructor]. split; vm_compute; discriminate.
  - right. vm_compute; reflexivity.
Defined.

(** With the files [ emma.pt] and [emma.pt] the registry has the lower-case
    keys [ emma] and [emma]; the input [ emma] equals the first but gets
    the path of the second. *)
Lemma exact_match_blank_key :
  @discover_voices posix_ascii blank_world
  = [(lit " emma", lit "/v/ emma.pt"); (lit "emma", lit "/v/emma.pt")]
  /\ Forall (fun kv => @lower posix_ascii (fst kv) = fst kv)
            (@discover_voices posix_ascii blank_world)
  /\ In (@lower posix_ascii (lit " emma"), lit "/v/ emma.pt")
        (@discover_voices posix_ascii blank_world)
  /\ @resolve_voice posix_ascii (lit " emma")
       (@discover_voices posix_ascii blank_world) s0
     = (Ok (lit "/v/emma.pt"), s0)
  /\ lit "/v/emma.pt" <> lit "/v/ emma.pt".
Proof.
  assert (@discover_voices posix_ascii blank_world
          = [(lit " emma", lit "/v/ emma.pt"); (lit "emma", lit "/v/emma.pt")])
    as E by (vm_compute; reflexivity).
  rewrite E. split; [done|]. split; [|split; [|split]].
  - repeat constructor.
  - by left.
  - vm_compute; reflexivity.
  - vm_compute; discriminate.
Qed.

(** An input in capitals with blanks around it. *)
Lemma resolve_voice_exact_witness :
  @resolve_voice posix_ascii (lit "  EN-Emma_Woman ") emma_registry s0
  = (Ok (lit "/v/en-emma_woman.pt"), s0).
Proof.
  apply (@resolve_voice_exact posix_ascii _ _ (lit "en-emma_woman")).
  - repeat constructor. intros H. inversion H.
  - by left.
  - vm_compute; reflexivity.
Defined.

(** ** The empty registry *)
Section EmptyRegistry.
Context {R : PyRuntime}.

(** C10: on the empty registry [resolve_voice] returns no path for any
    name, it raises [IndexError] at the absolute fallback having printed
    nothing; [generate] never gets there, because it raises
    [FileNotFoundError] as soon as discovery yields the empty registry. *)
Theorem empty_registry_guard (w : World) (text output_path voice_name : str)
    (cfg_scale : Z * Z) (output_format name : str) (s : State) :
  discover_voices w = [] ->
  outcome w ImportVibeVoice = Ok tt ->
  resolve_voice name [] s = (Raise IndexError, s)
  /\ exists s',
       generate w text output_path voice_name cfg_scale output_format s
       = (Raise (FileNotFoundError (lit "No voice files found in " ++ VOICES_DIR w)),
          s')
       /\ stderr s' = stderr s
       /\ calls s' = calls s ++ [ImportVibeVoice].
Proof.
  intros Hd Himp. split.
  - by rewrite resolve_voice_steps.
  - unfold generate, synthesize, bind, call. rewrite Himp.
    destruct (select_device w) as [[device dtype] attn]. rewrite Hd.
    by eexists.
Qed.

End EmptyRegistry.

(** A host without the voices directory. *)
Lemma empty_registry_guard_witness :
  @resolve_voice posix_ascii (lit "Emma") [] s0 = (Raise IndexError, s0)
  /\ exists s',
       @generate posix_ascii (quiet_world false [] []) (lit "Hello")
         (lit "/tmp/hello.wav") (lit "Emma") (3, 2)%Z (lit "wav") s0
       = (Raise (FileNotFoundError (lit "No voice files found in /v")), s')
       /\ stderr s' = []
       /\ calls s' = [ImportVibeVoice].
Proof.
  apply (@empty_registry_guard posix_ascii (quiet_world false [] []));
    reflexivity.
Defined.

(** ** Text normalisation *)

Lemma clean_text_map s : clean_text s = List.map spec_quote s.
Proof.
  unfold clean_text, replace. rewrite !List.map_map. apply List.map_ext.
  intros c. unfold spec_quote.
  destruct (N.eqb_spec c 8216) as [->|?]; [done|].
  destruct (N.eqb_spec c 8217) as [->|?]; [done|].
  destruct (N.eqb_spec c 8220) as [->|?]; [done|].
  destruct (N.eqb_spec c 8221) as [->|?]; [done|].
  destruct (N.eqb_spec c 34) as [->|?]; [done|].
  by destruct (N.eqb_spec c 39) as [->|?].
Qed.

Lemma spec_quote_idem c : spec_quote (spec_quote c) = spec_quote c.
Proof.
  unfold spec_quote.
  destruct (N.eqb_spec c 8216) as [->|?]; [done|].
  destruct (N.eqb_spec c 8217) as [->|?]; [done|].
  destruct (N.eqb_spec c 8220) as [->|?]; [done|].
  destruct (N.eqb_spec c 8221) as [->|?]; [done|].
  repeat match goal with
         | |- context [N.eqb c ?k] => destruct (N.eqb_spec c k); [done|]
         end.
  done.
Qed.

Lemma spec_quote_other c :
  c <> 8216 -> c <> 8217 -> c <> 8220 -> c <> 8221 -> spec_quote c = c.
Proof.
  intros. unfold spec_quote.
  repeat match goal with
         | |- context [N.eqb c ?k] => destruct (N.eqb_spec c k); [done|]
         end.
  done.
Qed.

(** C8: the normalisation of the text sends each of U+2018, U+2019,
    U+201C, U+201D to its ASCII quote and keeps every other character in
    place; it is idempotent, and a text without these four characters is
    returned unchanged. *)
Theorem clean_text_smart_quotes :
  clean_text [8216; 8217; 8220; 8221] = [39; 39; 34; 34]
  /\ (forall s, length (clean_text s) = length s)
  /\ (forall s i c, nth_error s i = Some c ->
        nth_error (clean_text s) i = Some (spec_quote c)
        /\ (c <> 8216 -> c <> 8217 -> c <> 8220 -> c <> 8221 -> spec_quote c = c))
  /\ (forall s, clean_text (clean_text s) = clean_text s)
  /\ (forall s, Forall (fun c => c <> 8216 /\ c <> 8217 /\ c <> 8220 /\ c <> 8221) s ->
        clean_text s = s).
Proof.
  split; [reflexivity|]. split; [|split; [|split]].
  - intros s. rewrite clean_text_map. apply List.length_map.
  - intros s i c H. split; [|apply spec_quote_other].
    rewrite clean_text_map. by apply List.map_nth_error.
  - intros s. rewrite !clean_text_map, List.map_map.
    apply List.map_ext, spec_quote_idem.
  - intros s H. rewrite clean_text_map.
    induction H as [|c s (? & ? & ? & ?) _ IH]; [done|].
    cbn [List.map]. by rewrite IH, spec_quote_other.
Qed.

(** A quoted word, and a text with an ASCII apostrophe only. *)
Lemma clean_text_smart_quotes_witness :
  nth_error (clean_text (8220 :: lit "Hi" ++ [8221])) 3 = Some 34
  /\ clean_text (lit "it's") = lit "it's".
Proof.
  destruct clean_text_smart_quotes as (_ & _ & Hnth & _ & Hsame). split.
  - apply (Hnth (8220 :: lit "Hi" ++ [8221]) 3%nat 8221). reflexivity.
  - apply Hsame. repeat constructor; discriminate.
Defined.

(** ** Order of strings *)

Lemma compare_eq a b : compare a b = Eq <-> a = b.
Proof.
  revert b. induction a as [|x a IH]; intros [|y b]; cbn [compare]; try done.
  destruct (N.compare_spec x y) as [->|Hlt|Hgt].
  - rewrite IH. split; [by intros ->|by intros [= ->]].
  - split; [done|]. intros [= -> _]. lia.
  - split; [done|]. intros [= -> _]. lia.
Qed.

Lemma compare_antisym a b : compare b a = CompOpp (compare a b).
Proof.
  revert b. induction a as [|x a IH]; intros [|y b]; cbn [compare]; try done.
  rewrite (N.compare_antisym x y).
  destruct (N.compare x y); cbn [CompOpp]; [apply IH|done..].
Qed.

Lemma compare_lt_trans a b c :
  compare a b = Lt -> compare b c = Lt -> compare a c = Lt.
Proof.
  revert b c. induction a as [|x a IH]; intros [|y b] [|z c]; cbn [compare]; try done.
  destruct (N.compare_spec x y) as [->| |]; [|
    destruct (N.compare_spec y z) as [->| |]; [| |done] | done].
  - destruct (N.compare y z); [apply IH | done..].
  - intros _ _. by rewrite (proj2 (N.compare_lt_iff x z)).
  - intros _ _. rewrite (proj2 (N.compare_lt_iff x z)); [done|lia].
Qed.

Lemma str_lt_compare a b : str_lt a b <-> compare a b = Lt.
Proof. unfold str_lt, ltb. by destruct (compare a b). Qed.

Lemma str_lt_trans a b c : str_lt a b -> str_lt b c -> str_lt a c.
Proof. rewrite !str_lt_compare. apply compare_lt_trans. Qed.

Lemma item_le_total a b : item_le a b \/ item_le b a.
Proof.
  unfold item_le, item_leb, leb.
  rewrite (compare_antisym (fst a) (fst b)), (compare_antisym (snd a) (snd b)).
  destruct (compare (fst a) (fst b)), (compare (snd a) (snd b)); cbn; auto.
Qed.

Lemma item_le_keys a b : item_le a b -> fst a <> fst b -> str_lt (fst a) (fst b).
Proof.
  unfold item_le, item_leb. rewrite str_lt_compare.
  destruct (compare (fst a) (fst b)) eqn:E; [|done..].
  apply compare_eq in E. by intros _ [].
Qed.

(** ** Building the registry *)

Lemma dict_contains_cons (d : dict) k k' v' :
  dict_contains ((k', v') :: d) k = str_eqb k k' || dict_contains d k.
Proof. reflexivity. Qed.

Lemma dict_setitem_keys (d : dict) k v :
  List.map fst (dict_setitem d k v)
  = if dict_contains d k then List.map fst d else List.map fst d ++ [k].
Proof.
  induction d as [|[k' v'] d IH]; [done|].
  rewrite dict_contains_cons. cbn [dict_setitem].
  destruct (str_eqb k k'); [done|]. cbn [List.map fst orb app].
  rewrite IH. by destruct (dict_contains d k).
Qed.

Lemma dict_contains_In (d : dict) k :
  dict_contains d k = true <-> In k (List.map fst d).
Proof.
  unfold dict_contains. rewrite existsb_exists, List.in_map_iff.
  split; intros [kv [H1 H2]]; exists kv.
  - apply str_eqb_eq in H2. by split.
  - split; [done|]. by apply str_eqb_eq.
Qed.

Lemma dict_setitem_NoDup (d : dict) k v :
  NoDup (List.map fst d) -> NoDup (List.map fst (dict_setitem d k v)).
Proof.
  intros H. rewrite dict_setitem_keys.
  destruct (dict_contains d k) eqn:E; [done|].
  apply NoDup_app. split; [done|]. split; [|apply NoDup_singleton].
  intros x Hx ->%list_elem_of_singleton.
  apply not_true_iff_false in E. apply E, dict_contains_In.
  by apply list_elem_of_In.
Qed.

Lemma dict_setitem_In (d : dict) k v k' v' :
  In (k', v') (dict_setitem d k v) -> (k' = k /\ v' = v) \/ In (k', v') d.
Proof.
  induction d as [|[k0 v0] d IH]; cbn [dict_setitem].
  - intros [[= <- <-]|[]]. by left.
  - destruct (str_eqb k k0) eqn:E.
    + apply str_eqb_eq in E as ->. intros [[= <- <-]|H]; [by left|].
      right. by right.
    + intros [H|H]; [right; by left|].
      destruct (IH H) as [?|?]; [by left|]. right. by right.
Qed.

#[local] Instance item_le_Total : Total item_le.
Proof. intros a b. apply item_le_total. Qed.

#[local] Instance str_lt_Transitive : Transitive str_lt.
Proof. intros a b c. apply str_lt_trans. Qed.

Lemma sorted_keys (items : dict) :
  NoDup (List.map fst items) ->
  StronglySorted str_lt (List.map fst (sorted items)).
Proof.
  intros Hnd. apply Sorted_StronglySorted; [apply _|].
  assert (NoDup (List.map fst (sorted items))) as Hnd'.
  { assert (List.map fst (sorted items) ≡ₚ List.map fst items) as HP
      by apply Permutation_map, merge_sort_Permutation.
    by rewrite HP. }
  pose proof (Sorted_merge_sort item_le items) as Hs. fold (sorted items) in Hs.
  induction Hs as [|a l Hs IH Hhd]; [constructor|].
  cbn [List.map] in *. apply NoDup_cons in Hnd' as [Ha Hnd'].
  constructor; [by apply IH|].
  destruct Hhd as [|b l Hab]; [constructor|]. cbn [List.map]. constructor.
  apply item_le_keys; [done|]. intros E. apply Ha. rewrite E.
  cbn [List.map]. by left.
Qed.

Section Discovery.
Context {R : PyRuntime}.

Lemma scan_NoDup pt_files (d : dict) :
  NoDup (List.map fst d) -> NoDup (List.map fst (scan pt_files d)).
Proof.
  revert d. induction pt_files as [|f fs IH]; intros d H; [done|].
  cbn [scan]. by apply IH, dict_setitem_NoDup.
Qed.

Lemma scan_In pt_files (d : dict) k v :
  In (k, v) (scan pt_files d) ->
  In (k, v) d
  \/ exists f, In f pt_files /\ k = lower (splitext_root (basename f)) /\ v = abspath f.
Proof.
  revert d. induction pt_files as [|f fs IH]; intros d; [by left|].
  cbn [scan]. intros [H|(f' & ? & ?)]%IH.
  - apply dict_setitem_In in H as [[-> ->]|H]; [|by left].
    right. exists f. split; [by left|done].
  - right. exists f'. split; [by right|done].
Qed.


End Discovery.


(** ** Loading the model *)

Ltac run_monad :=
  unfold try_except, try_finally, bind, call, print, ret, raise, lift;
  cbn [stderr calls files printed].

Section LoadFailure.
Context {R : PyRuntime}.

(** A failure of loading is a failure of [generate]. *)
Lemma generate_load_failure w device dtype attn e text output_path voice_name
    cfg_scale output_format s :
  select_device w = (device, dtype, attn) ->
  discover_voices w <> [] ->
  outcome w ImportVibeVoice = Ok tt ->
  outcome w ProcessorFromPretrained = Ok tt ->
  (forall s1, exists s2, load_model w device dtype attn s1 = (Raise e, s2)) ->
  exists s', generate w text output_path voice_name cfg_scale output_format s
             = (Raise e, s').
Proof.
  intros Hsel Hne Himp Hproc Hload. unfold generate, synthesize. rewrite Hsel.
  destruct (discover_voices w) as [|kv voices] eqn:Hd; [done|].
  unfold bind at 1 2. unfold call at 1. rewrite Himp. unfold bind at 1.
  match goal with
  | |- context [resolve_voice voice_name (kv :: voices) ?st] =>
      destruct (resolve_voice_no_raise voice_name (kv :: voices) st)
        as (p & s1 & Hr); [done|]
  end.
  rewrite Hr.
  unfold bind at 1. unfold print at 1.
  unfold bind at 1. unfold call at 1. rewrite Hproc.
  unfold bind at 1.
  match goal with
  | |- context [load_model w device dtype attn ?st] =>
      destruct (Hload st) as [s2 ->]
  end.
  by eexists.
Qed.

End LoadFailure.

Section Loading.
Context {R : PyRuntime}.

(** C5: when the fused kernel was selected and the construction of the
    model raises, the model is constructed once more, with [sdpa] and the
    same device and precision, and what that second construction does is
    what loading does, a failure included; when [sdpa] was selected, a
    failure of the construction is the failure of loading, with no further
    call; a construction that succeeds is not repeated. *)
Theorem load_model_fallback (w : World) (device : Device) (dtype : Dtype)
    (attn : Attn) (s : State) :
  select_device w = (device, dtype, attn) ->
  (attn = flash_attention_2 ->
   forall e,
     outcome w (ModelFromPretrained (load_args device dtype flash_attention_2))
     = Raise e ->
     exists s',
       load_model w device dtype attn s
       = (outcome w (ModelFromPretrained (load_args device dtype sdpa)), s')
       /\ calls s' = calls s
                     ++ [ModelFromPretrained (load_args device dtype flash_attention_2);
                         ModelFromPretrained (load_args device dtype sdpa)]
       /\ stderr s' = stderr s ++ [InfoFlashFailed e])
  /\ (attn = sdpa ->
      forall e s1,
        construct_model w device dtype attn s = (Raise e, s1) ->
        load_model w device dtype attn s = (Raise e, s1)
        /\ exists tail,
             calls s1 = calls s
                        ++ ModelFromPretrained (load_args device dtype sdpa) :: tail
             /\ (tail = [] \/ tail = [ModelTo mps]))
  /\ (forall s1,
        construct_model w device dtype attn s = (Ok tt, s1) ->
        load_model w device dtype attn s = (Ok tt, s1))
  /\ (forall e text output_path voice_name cfg_scale output_format,
        discover_voices w <> [] ->
        outcome w ImportVibeVoice = Ok tt ->
        outcome w ProcessorFromPretrained = Ok tt ->
        outcome w (ModelFromPretrained (load_args device dtype sdpa)) = Raise e ->
        (attn = flash_attention_2 ->
         exists e0,
           outcome w (ModelFromPretrained (load_args device dtype flash_attention_2))
           = Raise e0) ->
        exists s',
          generate w text output_path voice_name cfg_scale output_format s
          = (Raise e, s')).
Proof.
  intros Hsel. split; [|split; [|split]].
  - intros -> e He. unfold select_device in Hsel.
    destruct (cuda_is_available w);
      [|destruct (mps_is_available w); discriminate Hsel].
    injection Hsel as <- <-. unfold load_model, construct_model, load_args in *.
    run_monad. rewrite He. clear He.
    destruct (outcome w (ModelFromPretrained _)) as [[]|e2];
      eexists; (split; [reflexivity|]); cbn [calls stderr];
      by rewrite <- app_assoc.
  - intros -> e s1 Hc. split.
    + unfold load_model, try_except. by rewrite Hc.
    + unfold select_device in Hsel.
      destruct (cuda_is_available w); [discriminate Hsel|].
      destruct (mps_is_available w); injection Hsel as <- <-;
        unfold construct_model, load_args in *; revert Hc; run_monad.
      * destruct (outcome w (ModelFromPretrained _)) as [[]|e1].
        -- intros [= _ <-]. cbn [calls]. eexists. rewrite <- app_assoc.
           split; [reflexivity|]. by right.
        -- intros [= _ <-]. cbn [calls]. eexists. split; [reflexivity|]. by left.
      * intros [= _ <-]. cbn [calls]. eexists. split; [reflexivity|]. by left.
  - intros s1 Hc. unfold load_model, try_except. by rewrite Hc.
  - intros e text output_path voice_name cfg_scale output_format Hne Himp Hproc
      He Hflash.
    eapply generate_load_failure; [exact Hsel|exact Hne|exact Himp|exact Hproc|].
    intros s2. unfold select_device in Hsel.
    destruct (cuda_is_available w);
      [|destruct (mps_is_available w)]; injection Hsel as <- <- <-;
      unfold load_model, construct_model, load_args in *; run_monad.
    + destruct Hflash as [e0 ->]; [done|]. rewrite He. by eexists.
    + rewrite He. by eexists.
    + rewrite He. by eexists.
Qed.

End Loading.

(** On the CUDA host whose fused kernel fails, loading makes the two
    constructions and succeeds. *)
Lemma load_model_fallback_witness :
  exists s',
    load_model flash_failing_world cuda bfloat16 flash_attention_2 s0 = (Ok tt, s')
    /\ calls s' = [ModelFromPretrained (load_args cuda bfloat16 flash_attention_2);
                   ModelFromPretrained (load_args cuda bfloat16 sdpa)]
    /\ stderr s' = [InfoFlashFailed (LibraryError 1)].
Proof.
  destruct (@load_model_fallback posix_ascii flash_failing_world cuda bfloat16
              flash_attention_2 s0 eq_refl) as [H _].
  exact (H eq_refl (LibraryError 1) eq_refl).
Defined.

(** ** After the model has answered *)
Section Output.
Context {R : PyRuntime}.

Lemma generate_after_synthesize w text output_path voice_name cfg_scale
    output_format s voice_path device outputs s1 :
  synthesize w text voice_name cfg_scale s = (Ok (voice_path, device, outputs), s1) ->
  generate w text output_path voice_name cfg_scale output_format s
  = save_output w outputs output_path output_format voice_path device s1.
Proof. intros H. unfold generate, bind. by rewrite H. Qed.

Lemma save_output_no_audio w outputs output_path output_format voice_path device s :
  speech_outputs outputs = [] \/ (exists rest, speech_outputs outputs = None :: rest) ->
  save_output w outputs output_path output_format voice_path device s
  = (Raise (RuntimeError (lit "No audio output generated")), s).
Proof.
  unfold save_output, speech0. intros [->|[rest ->]]; [done|].
  run_monad. by rewrite list_getitem_0.
Qed.

(** With a waveform in first place the check passes and the rest runs. *)
Lemma save_output_audio w outputs wv rest output_path output_format voice_path
    device s :
  speech_outputs outputs = Some wv :: rest ->
  save_output w outputs output_path output_format voice_path device s
  = (call w (Makedirs (dirname (abspath output_path))) ;;;
     (if str_eqb (lower output_format) (lit "ogg") then
        let* tmp_wav := named_temporary_file w in
        try_finally
          (call w (SaveAudio wv tmp_wav) ;;;
           wav_to_ogg_opus w tmp_wav output_path)
          (let* ex := path_exists tmp_wav in
           if (ex : bool) then unlink tmp_wav else ret tt)
      else call w (SaveAudio wv output_path)) ;;;
     ret {| output_path := output_path;
            format := lower output_format;
            voice := basename voice_path;
            device := device_name device |}) s.
Proof.
  intros H. unfold save_output, speech0. rewrite H, list_getitem_0.
  reflexivity.
Qed.

End Output.

Section Transcoding.
Context {R : PyRuntime}.

(** C6: when the requested format is [ogg] and the pipeline has reached
    the saving step, the waveform is written to the temporary file, that
    file is handed to the encoder with the final location as target, and
    however writing and transcoding end (return, raise, non-zero exit) the
    temporary file does not exist when [generate] is over. *)
Theorem ogg_temporary_file_removed (w : World)
    (text output_path voice_name : str) (cfg_scale : Z * Z) (output_format : str)
    (s s1 : State) (voice_path : str) (device : Device) (outputs : Outputs)
    (wv : Waveform) (rest : list (option Waveform)) :
  synthesize w text voice_name cfg_scale s = (Ok (voice_path, device, outputs), s1) ->
  speech_outputs outputs = Some wv :: rest ->
  lower output_format = lit "ogg" ->
  outcome w (Makedirs (dirname (abspath output_path))) = Ok tt ->
  outcome w NamedTemporaryFile = Ok tt ->
  exists r s' tail,
    generate w text output_path voice_name cfg_scale output_format s = (r, s')
    /\ (tmp_name w ∉ files s')
    /\ calls s' = calls s1
                  ++ [Makedirs (dirname (abspath output_path)); NamedTemporaryFile;
                      SaveAudio wv (tmp_name w)] ++ tail
    /\ (outcome w (SaveAudio wv (tmp_name w)) = Ok tt ->
        exists tail',
          tail = SubprocessRun (ffmpeg_cmd (tmp_name w) output_path) :: tail')
    /\ ((exists m, r = Ok m) <->
        outcome w (SaveAudio wv (tmp_name w)) = Ok tt
        /\ outcome w (SubprocessRun (ffmpeg_cmd (tmp_name w) output_path)) = Ok tt
        /\ returncode w (ffmpeg_cmd (tmp_name w) output_path) = 0%Z).
Proof.
  intros Hsyn Hwv Hfmt Hmk Htmp.
  rewrite (generate_after_synthesize _ _ _ _ _ _ _ _ _ _ _ Hsyn).
  rewrite (save_output_audio _ _ _ _ _ _ _ _ _ Hwv).
  rewrite Hfmt, str_eqb_refl.
  unfold named_temporary_file, wav_to_ogg_opus, path_exists, unlink.
  run_monad. rewrite Hmk, Htmp. cbn [stderr calls files].
  destruct (outcome w (SaveAudio wv (tmp_name w))) as [[]|e1] eqn:Hsave;
    cbn [stderr calls files].
  2: { case_bool_decide; eexists _, _, _; (split; [reflexivity|]);
       cbn [calls files]; rewrite <- ?app_assoc; cbn [app];
       (split; [by first [assumption | apply not_elem_of_difference; right; apply elem_of_singleton]|]); (split; [reflexivity|]);
       (split; [done|]); (split; [by intros [? ?] | by intros [? _]]). }
  destruct (outcome w (SubprocessRun _)) as [[]|e2] eqn:Hrun;
    cbn [stderr calls files].
  2: { case_bool_decide; eexists _, _, _; (split; [reflexivity|]);
       cbn [calls files]; rewrite <- ?app_assoc; cbn [app];
       (split; [by first [assumption | apply not_elem_of_difference; right; apply elem_of_singleton]|]); (split; [reflexivity|]);
       (split; [by eauto|]);
       (split; [by intros [? ?] | by intros (_ & ? & _)]). }
  destruct (Z.eqb_spec (returncode w (ffmpeg_cmd (tmp_name w) output_path)) 0)
    as [Hrc|Hrc]; cbn [negb stderr calls files];
    case_bool_decide; eexists _, _, _; (split; [reflexivity|]);
    cbn [calls files]; rewrite <- ?app_assoc; cbn [app];
    (split; [by first [assumption | apply not_elem_of_difference; right; apply elem_of_singleton]|]); (split; [reflexivity|]);
    (split; [by eauto|]); split;
    try (by intros [? ?]); try (by intros (_ & _ & ?)); by eauto.
Qed.

End Transcoding.

Section OutputCheck.
Context {R : PyRuntime}.




End OutputCheck.

(** Runs the pipeline up to the model's answer from the empty state. *)
Ltac evaluate_synthesize w text voice cfg H :=
  let v := eval vm_compute in (@synthesize posix_ascii w text voice cfg s0) in
  assert (@synthesize posix_ascii w text voice cfg s0 = v) as H
    by (vm_compute; reflexivity).

(** A successful run with [--format OGG]. *)
Lemma ogg_temporary_file_removed_witness :
  exists r s',
    @generate posix_ascii
      (quiet_world true [lit "/v/en-Emma_woman.pt"] [Some {| samples := 48000 |}])
      (lit "Hello") (lit "/tmp/hello.ogg") (lit "Emma") (3, 2)%Z (lit "OGG") s0
    = (r, s')
    /\ lit "/tmp/tmpa1b2c3.wav" ∉ files s'.
Proof.
  evaluate_synthesize
    (quiet_world true [lit "/v/en-Emma_woman.pt"] [Some {| samples := 48000 |}])
    (lit "Hello") (lit "Emma") (3, 2)%Z Hsyn.
  edestruct (@ogg_temporary_file_removed posix_ascii _ _ (lit "/tmp/hello.ogg")
               _ _ (lit "OGG") _ _ _ _ _ {| samples := 48000 |} [] Hsyn)
    as (r & s' & tail & Hg & Hfiles & _); [reflexivity..|].
  exists r, s'. by split.
Defined.



(** * Further properties *)

(** ** More on [resolve_voice] *)

Lemma startswith_app b c : startswith (b ++ c) b = true.
Proof.
  induction b as [|x b IH]; [done|]. cbn [app startswith].
  by rewrite N.eqb_refl, IH.
Qed.

Lemma contains_infix a b c : contains (a ++ b ++ c) b = true.
Proof.
  induction a as [|x a IH]; cbn [app].
  - destruct (b ++ c) eqn:E; cbn [contains]; rewrite <- E, startswith_app; done.
  - cbn [contains]. rewrite IH. apply orb_true_r.
Qed.

Lemma contains_refl a : contains a a = true.
Proof. rewrite <- (app_nil_r a) at 1. apply (contains_infix [] a []). Qed.

Lemma contains_base key : contains key (base_of key) = true.
Proof.
  destruct (base_of_spec key) as [_ [E|[rest E]]]; rewrite E at 1.
  - apply contains_refl.
  - apply (contains_infix [] (base_of key) (95 :: rest)).
Qed.

Lemma contains_short key : contains key (short_of (base_of key)) = true.
Proof.
  destruct (short_of_spec (base_of key)) as [_ H].
  destruct (base_of_spec key) as [_ Hk].
  revert H Hk. generalize (short_of (base_of key)) as sh.
  generalize (base_of key) as b. intros b sh H Hk.
  assert (exists pre post, key = pre ++ sh ++ post) as (pre & post & ->).
  { destruct H as [->|[pre ->]], Hk as [->|[rest ->]].
    - exists [], []. by rewrite app_nil_r.
    - by exists [], (95 :: rest).
    - exists (pre ++ [45]), []. by rewrite app_nil_r, <- app_assoc.
    - exists (pre ++ [45]), (95 :: rest). by rewrite <- !app_assoc. }
  apply contains_infix.
Qed.

(** A key matched exactly or through one of its two forms is matched by
    the substring test as well. *)
Lemma convenience_hit_partial l kv :
  convenience_hit l kv = true -> partial_hit l kv = true.
Proof.
  unfold convenience_hit, partial_hit.
  intros [->%str_eqb_eq| ->%str_eqb_eq]%orb_true_iff; apply orb_true_iff; left.
  - apply contains_short.
  - apply contains_base.
Qed.

Lemma no_partial_hit l (voices : dict) :
  Forall (fun kv => partial_hit l kv = false) voices ->
  dict_contains voices l = false
  /\ List.find (convenience_hit l) voices = None
  /\ List.filter (partial_hit l) voices = [].
Proof.
  induction 1 as [|[k p] voices Hkp _ (IH1 & IH2 & IH3)]; [done|].
  rewrite dict_contains_cons. cbn [List.find List.filter].
  rewrite Hkp, IH1, IH2, IH3.
  destruct (convenience_hit l (k, p)) eqn:Hc;
    [apply convenience_hit_partial in Hc; congruence|].
  destruct (str_eqb l k) eqn:E; [|done].
  apply str_eqb_eq in E as ->. unfold partial_hit in Hkp. cbn [fst] in Hkp.
  by rewrite contains_refl in Hkp.
Qed.

Lemma first_english_split items k p :
  first_english items = Some (k, p) ->
  exists pre post,
    items = pre ++ (k, p) :: post
    /\ startswith k (lit "en-") = true
    /\ Forall (fun kv => startswith (fst kv) (lit "en-") = false) pre.
Proof.
  induction items as [|[k' p'] items IH]; cbn [first_english]; [done|].
  destruct (startswith k' (lit "en-")) eqn:E.
  - intros [= -> ->]. by exists [], items.
  - intros (pre & post & -> & ? & ?)%IH. exists ((k', p') :: pre), post.
    split; [done|]. split; [done|]. by constructor.
Qed.

Lemma first_english_None items :
  first_english items = None ->
  Forall (fun kv => startswith (fst kv) (lit "en-") = false) items.
Proof.
  induction items as [|[k' p'] items IH]; cbn [first_english]; [by constructor|].
  destruct (startswith k' (lit "en-")) eqn:E; [done|]. intros ?%IH. by constructor.
Qed.

Lemma find_all_false {A} (f : A -> bool) l :
  Forall (fun x => f x = false) l -> List.find f l = None.
Proof. induction 1 as [|x l Hx _ IH]; [done|]. cbn [List.find]. by rewrite Hx. Qed.

Lemma filter_blank (l : dict) : List.filter (partial_hit []) l = l.
Proof.
  induction l as [|kv l IH]; [done|]. cbn [List.filter].
  unfold partial_hit at 1. destruct (fst kv); cbn [contains startswith orb];
    by rewrite IH.
Qed.

Section ResolveMore.
Context {R : PyRuntime}.

(** Whatever the name, [resolve_voice] hands back the path of an entry of
    a non-empty registry; it makes no call, touches no file, and prints at
    most one line, a warning that quotes the name as it was given. *)
Theorem resolve_voice_entry (name : str) (voices : dict) (s : State) :
  voices <> [] ->
  exists k p s',
    resolve_voice name voices s = (Ok p, s')
    /\ In (k, p) voices
    /\ calls s' = calls s
    /\ files s' = files s
    /\ (stderr s' = stderr s
        \/ exists ks, stderr s' = stderr s ++ [WarnMultiple name ks]
        \/ stderr s' = stderr s ++ [WarnDefault name k]
        \/ stderr s' = stderr s ++ [WarnUsing name p]).
Proof.
  intros Hne. rewrite resolve_voice_steps. cbv zeta.
  destruct (dict_contains voices _) eqn:Hc.
  { apply dict_getitem_contains in Hc as [v [-> Hin]]. by eauto 10. }
  destruct (List.find _ voices) as [[k p]|] eqn:Hf.
  { apply List.find_some in Hf as [Hin _]. by eauto 10. }
  destruct (List.filter _ voices) as [|[k p] [|m' ms]] eqn:Hm.
  - destruct (first_english voices) as [[k p]|] eqn:He.
    + apply first_english_In in He as [Hin _].
      exists k, p. eexists. repeat split; [done|]. right. exists []. by eauto.
    + destruct voices as [|[k p] voices]; [done|].
      exists k, p. eexists. repeat split; [by left|]. right. exists []. by eauto.
  - assert (In (k, p) (List.filter (partial_hit (strip (lower name))) voices))
      as [Hin _]%List.filter_In by (rewrite Hm; by left).
    by eauto 10.
  - assert (In (k, p) (List.filter (partial_hit (strip (lower name))) voices))
      as [Hin _]%List.filter_In by (rewrite Hm; by left).
    exists k, p. eexists. repeat split; [done|]. right. by eauto.
Qed.

(** The path returned depends on the name only through its lowered and
    stripped form: two spellings with the same form select the same
    voice. *)
Theorem resolve_voice_spelling (n1 n2 : str) (voices : dict) (s : State) :
  strip (lower n1) = strip (lower n2) ->
  fst (resolve_voice n1 voices s) = fst (resolve_voice n2 voices s).
Proof.
  intros H. rewrite !resolve_voice_steps. cbv zeta. rewrite H.
  destruct (dict_contains voices _); [done|].
  destruct (List.find _ voices); [done|].
  destruct (List.filter _ voices) as [|m [|m' ms]]; [|done..].
  destruct (first_english voices) as [[k p]|]; [done|].
  by destruct voices as [|[k p] ?].
Qed.

(** When no key contains the lowered and stripped name and none is
    contained in it, no step before the fallback matches either: the first
    entry in iteration order whose key starts with [en-] is returned with
    the default warning, and when there is none the very first entry with
    the last-resort warning. *)
Theorem resolve_voice_fallback (name : str) (voices : dict) (s : State) :
  voices <> [] ->
  Forall (fun kv => partial_hit (strip (lower name)) kv = false) voices ->
  (exists pre k p post,
     voices = pre ++ (k, p) :: post
     /\ startswith k (lit "en-") = true
     /\ Forall (fun kv => startswith (fst kv) (lit "en-") = false) pre
     /\ resolve_voice name voices s = (Ok p, printed (WarnDefault name k) s))
  \/ (exists k p rest,
        voices = (k, p) :: rest
        /\ Forall (fun kv => startswith (fst kv) (lit "en-") = false) voices
        /\ resolve_voice name voices s = (Ok p, printed (WarnUsing name p) s)).
Proof.
  intros Hne (Hc & Hf & Hm)%no_partial_hit.
  rewrite resolve_voice_steps. cbv zeta. rewrite Hc, Hf, Hm.
  destruct (first_english voices) as [[k p]|] eqn:He.
  - left. apply first_english_split in He as (pre & post & E & ? & ?).
    exists pre, k, p, post. by rewrite <- E.
  - right. apply first_english_None in He.
    destruct voices as [|[k p] rest]; [done|]. by exists k, p, rest.
Qed.

(** An empty or blank name is contained in every key: unless a key or one
    of its forms is empty, the first entry in iteration order is returned,
    silently when it is the only one and with the multi-match warning
    listing all keys otherwise. *)
Theorem resolve_voice_blank (name : str) (k p : str) (rest : dict) (s : State) :
  strip (lower name) = [] ->
  dict_contains ((k, p) :: rest) [] = false ->
  Forall (fun kv => convenience_hit [] kv = false) ((k, p) :: rest) ->
  resolve_voice name ((k, p) :: rest) s
  = (Ok p,
     match rest with
     | [] => s
     | _ => printed (WarnMultiple name (List.map fst ((k, p) :: rest))) s
     end).
Proof.
  intros Hl Hc Hf. rewrite resolve_voice_steps. cbv zeta. rewrite Hl, Hc.
  rewrite (find_all_false _ _ Hf), filter_blank.
  by destruct rest.
Qed.

End ResolveMore.

(** ** From a file name to a registry key *)

Lemma rfind_from_app c a b i found :
  rfind_from c (a ++ b) i found
  = rfind_from c b (i + Z.of_nat (length a))%Z (rfind_from c a i found).
Proof.
  revert i found. induction a as [|x a IH]; intros i found; cbn [app rfind_from length].
  - f_equal. lia.
  - rewrite IH. f_equal. lia.
Qed.

Lemma rfind_from_absent c s i found :
  ~ In c s -> rfind_from c s i found = found.
Proof.
  revert i. induction s as [|x s IH]; intros i Hn; [done|]. cbn [rfind_from].
  destruct (N.eqb_spec x c) as [->|_]; [destruct Hn; by left|].
  apply IH. intros ?. apply Hn. by right.
Qed.

Lemma rfind_absent c s : ~ In c s -> rfind c s = (-1)%Z.
Proof. apply rfind_from_absent. Qed.

Lemma rfind_last c a b :
  ~ In c b -> rfind c (a ++ c :: b) = Z.of_nat (length a).
Proof.
  intros Hn. unfold rfind. rewrite rfind_from_app. cbn [rfind_from].
  rewrite N.eqb_refl. by rewrite rfind_from_absent.
Qed.

Lemma basename_after_slash dir name :
  ~ In 47 name -> basename (dir ++ 47 :: name) = name.
Proof.
  intros Hn. unfold basename. rewrite rfind_last by done.
  replace (Z.to_nat (Z.of_nat (length dir) + 1)) with (length dir + 1)%nat by lia.
  rewrite skipn_app, List.skipn_all2 by lia.
  replace (length dir + 1 - length dir)%nat with 1%nat by lia. done.
Qed.

Lemma basename_plain name : ~ In 47 name -> basename name = name.
Proof. intros Hn. unfold basename. by rewrite rfind_absent. Qed.

Lemma splitext_root_stem stem ext :
  ~ In 47 (stem ++ 46 :: ext) -> ~ In 46 ext ->
  splitext_root (stem ++ 46 :: ext)
  = if existsb (fun c => negb (c =? 46)) stem then stem else stem ++ 46 :: ext.
Proof.
  intros Hsep Hdot. unfold splitext_root.
  rewrite (rfind_absent 47) by done. rewrite rfind_last by done.
  replace (-1 <? Z.of_nat (length stem))%Z with true
    by (symmetry; apply Z.ltb_lt; lia).
  unfold slice. change (Z.to_nat (-1 + 1)) with 0%nat.
  rewrite Nat2Z.id, Nat.sub_0_r, drop_0.
  rewrite firstn_app, List.firstn_all, Nat.sub_diag. cbn [firstn].
  by rewrite app_nil_r.
Qed.

Section VoiceKey.
Context {R : PyRuntime}.

(** The key under which a voice file is registered: for [dir/Stem.pt],
    with no [/] in the stem, it is the lowered stem, whatever the
    directory; only when the stem is empty or made of dots alone is the
    extension kept. *)
Theorem voice_key_of_path (dir stem : str) :
  ~ In 47 stem ->
  voice_key (dir ++ 47 :: stem ++ lit ".pt")
  = if existsb (fun c => negb (c =? 46)) stem
    then lower stem
    else lower (stem ++ lit ".pt").
Proof.
  intros Hn. unfold voice_key.
  assert (~ In 47 (stem ++ 46 :: lit "pt")) as Hn'.
  { intros [?|[?|Hpt]]%in_app_or; [done|done|].
    vm_compute in Hpt. intuition discriminate. }
  change (stem ++ lit ".pt") with (stem ++ 46 :: lit "pt").
  rewrite basename_after_slash by done.
  rewrite splitext_root_stem; [by destruct (existsb _ stem)|done|].
  vm_compute. intuition discriminate.
Qed.

End VoiceKey.

(** ** More on the registry *)

Lemma compare_refl a : compare a a = Eq.
Proof. by apply compare_eq. Qed.

Lemma leb_trans a b c : leb a b = true -> leb b c = true -> leb a c = true.
Proof.
  unfold leb.
  destruct (compare a b) eqn:E1; [apply compare_eq in E1 as ->; done| |done].
  destruct (compare b c) eqn:E2; [apply compare_eq in E2 as <-; by rewrite E1| |done].
  by rewrite (compare_lt_trans _ _ _ E1 E2).
Qed.

Lemma leb_antisym a b : leb a b = true -> leb b a = true -> a = b.
Proof.
  unfold leb. rewrite (compare_antisym a b).
  destruct (compare a b) eqn:E; [by apply compare_eq in E|done|done].
Qed.

#[local] Instance item_le_Transitive : Transitive item_le.
Proof.
  intros [ka va] [kb vb] [kc vc]. unfold item_le, item_leb. cbn [fst snd].
  destruct (compare ka kb) eqn:E1; [apply compare_eq in E1 as ->| |done].
  - destruct (compare kb kc); [|done..].
    intros H1%Is_true_true H2%Is_true_true. apply Is_true_true. by eapply leb_trans.
  - destruct (compare kb kc) eqn:E2; [apply compare_eq in E2 as <-; by rewrite E1| |done].
    by rewrite (compare_lt_trans _ _ _ E1 E2).
Qed.

Lemma item_le_antisym a b : item_le a b -> item_le b a -> a = b.
Proof.
  destruct a as [ka va], b as [kb vb]. unfold item_le, item_leb. cbn [fst snd].
  rewrite (compare_antisym ka kb).
  destruct (compare ka kb) eqn:E; cbn [CompOpp]; [|done..].
  apply compare_eq in E as ->.
  intros H1%Is_true_true H2%Is_true_true. f_equal. by apply leb_antisym.
Qed.

(** [sorted] depends on the items only, not on the order they come in. *)
Lemma sorted_Permutation (l1 l2 : dict) : l1 ≡ₚ l2 -> sorted l1 = sorted l2.
Proof.
  intros HP. unfold sorted.
  apply (Sorted_unique_strong item_le).
  - intros x1 x2 _ _. apply item_le_antisym.
  - apply Sorted_merge_sort, _.
  - apply Sorted_merge_sort, _.
  - by rewrite !merge_sort_Permutation.
Qed.

Lemma dict_getitem_setitem (d : dict) k' v k :
  dict_getitem (dict_setitem d k' v) k
  = if str_eqb k k' then Ok v else dict_getitem d k.
Proof.
  induction d as [|[k0 v0] d IH]; cbn [dict_setitem dict_getitem]; [done|].
  destruct (str_eqb k' k0) eqn:E0; cbn [dict_getitem].
  - apply str_eqb_eq in E0 as ->. by destruct (str_eqb k k0).
  - rewrite IH. destruct (str_eqb k k0) eqn:E1; [|done].
    apply str_eqb_eq in E1 as ->. destruct (str_eqb k0 k') eqn:E2; [|done].
    apply str_eqb_eq in E2 as ->. by rewrite str_eqb_refl in E0.
Qed.

Lemma dict_setitem_fresh (d : dict) k v :
  dict_contains d k = false -> dict_setitem d k v = d ++ [(k, v)].
Proof.
  induction d as [|[k0 v0] d IH]; [done|]. rewrite dict_contains_cons.
  intros [E ?]%orb_false_iff. cbn [dict_setitem app]. rewrite E. by rewrite IH.
Qed.

Lemma dict_getitem_In (d : dict) k v : dict_getitem d k = Ok v -> In (k, v) d.
Proof.
  induction d as [|[k0 v0] d IH]; cbn [dict_getitem]; [done|].
  destruct (str_eqb k k0) eqn:E.
  - apply str_eqb_eq in E as ->. intros [= ->]. by left.
  - intros ?%IH. by right.
Qed.

Lemma dict_getitem_Raise (d : dict) k e :
  dict_getitem d k = Raise e -> e = KeyError k /\ dict_contains d k = false.
Proof.
  induction d as [|[k0 v0] d IH]; cbn [dict_getitem].
  - by intros [= <-].
  - rewrite dict_contains_cons. destruct (str_eqb k k0); [done|]. apply IH.
Qed.

(** Lookup does not see the order of a dict. *)
Lemma dict_getitem_Permutation (d1 d2 : dict) k :
  NoDup (List.map fst d1) -> d1 ≡ₚ d2 -> dict_getitem d1 k = dict_getitem d2 k.
Proof.
  intros Hnd HP.
  assert (NoDup (List.map fst d2)) as Hnd'
    by (by rewrite <- (Permutation_map fst HP)).
  destruct (dict_getitem d1 k) as [v|e] eqn:E1.
  - symmetry. apply dict_getitem_NoDup; [done|].
    apply dict_getitem_In, list_elem_of_In in E1. rewrite HP in E1.
    by apply list_elem_of_In.
  - apply dict_getitem_Raise in E1 as [-> E1].
    destruct (dict_getitem d2 k) as [v|e] eqn:E2.
    + apply dict_getitem_In, list_elem_of_In in E2. rewrite <- HP in E2.
      apply list_elem_of_In in E2.
      by rewrite (dict_getitem_Ok _ _ _ (dict_getitem_NoDup _ _ _ Hnd E2)) in E1.
    + by apply dict_getitem_Raise in E2 as [-> _].
Qed.

Lemma find_snoc {A} (f : A -> bool) l x :
  List.find f (l ++ [x])
  = match List.find f l with
    | Some y => Some y
    | None => if f x then Some x else None
    end.
Proof.
  induction l as [|y l IH]; cbn [app List.find]; [done|]. by destruct (f y).
Qed.

Section RegistryMore.
Context {R : PyRuntime}.

Lemma scan_getitem pt_files (d : dict) k :
  dict_getitem (scan pt_files d) k
  = match List.find (fun f => str_eqb k (voice_key f)) (rev pt_files) with
    | Some f => Ok (abspath f)
    | None => dict_getitem d k
    end.
Proof.
  revert d. induction pt_files as [|f fs IH]; intros d; [done|].
  cbn [scan rev]. rewrite IH, find_snoc, dict_getitem_setitem.
  fold (voice_key f). destruct (List.find _ (rev fs)); [done|].
  by destruct (str_eqb k (voice_key f)).
Qed.

Lemma scan_fresh pt_files (d : dict) :
  NoDup (List.map fst d ++ List.map voice_key pt_files) ->
  scan pt_files d = d ++ List.map (fun f => (voice_key f, abspath f)) pt_files.
Proof.
  revert d. induction pt_files as [|f fs IH]; intros d Hnd.
  - cbn [scan List.map]. by rewrite app_nil_r.
  - cbn [scan List.map] in *. fold (voice_key f).
    rewrite dict_setitem_fresh.
    + rewrite IH; [by rewrite <- app_assoc|].
      by rewrite List.map_app, <- app_assoc.
    + apply not_true_iff_false. intros Hin%dict_contains_In%list_elem_of_In.
      apply NoDup_app in Hnd as (_ & Hnd & _). apply (Hnd _ Hin). by left.
Qed.

Lemma discover_voices_In (w : World) k v :
  In (k, v) (discover_voices w) ->
  exists f, In f (glob_pt w) /\ k = voice_key f /\ v = abspath f.
Proof.
  unfold discover_voices.
  destruct (voices_dir_exists w); cbn [negb]; [|intros []].
  intros H%list_elem_of_In. unfold sorted in H.
  rewrite merge_sort_Permutation in H.
  by apply list_elem_of_In, scan_In in H as [[]|H].
Qed.

Lemma discover_voices_NoDup (w : World) :
  NoDup (List.map fst (discover_voices w)).
Proof.
  unfold discover_voices. destruct (voices_dir_exists w); cbn [negb];
    [|constructor].
  assert (List.map fst (sorted (scan (glob_pt w) []))
          ≡ₚ List.map fst (scan (glob_pt w) [])) as ->
    by apply Permutation_map, merge_sort_Permutation.
  apply scan_NoDup. constructor.
Qed.

(** Lookup in the registry: a scanned file is found under its key with
    its absolute path unless a file found later has the same key, in which
    case the later one has replaced it; a key no file has is missing. *)
Theorem discover_voices_lookup (w : World) :
  voices_dir_exists w = true ->
  (forall pre f post,
     glob_pt w = pre ++ f :: post ->
     Forall (fun g => voice_key g <> voice_key f) post ->
     dict_getitem (discover_voices w) (voice_key f) = Ok (abspath f))
  /\ (forall k,
        Forall (fun g => voice_key g <> k) (glob_pt w) ->
        dict_getitem (discover_voices w) k = Raise (KeyError k)).
Proof.
  intros Hdir.
  assert (forall k, dict_getitem (discover_voices w) k
                    = dict_getitem (scan (glob_pt w) []) k) as Hget.
  { intros k. unfold discover_voices. rewrite Hdir. cbn [negb]. symmetry.
    apply dict_getitem_Permutation; [apply scan_NoDup; constructor|].
    symmetry. apply merge_sort_Permutation. }
  split.
  - intros pre f post E Hpost. rewrite Hget, scan_getitem, E.
    rewrite rev_app_distr. cbn [rev]. rewrite <- app_assoc. cbn [app].
    rewrite (find_first _ (rev post) f (rev pre)); [done| |apply str_eqb_refl].
    apply Forall_rev. eapply Forall_impl; [exact Hpost|]. intros g Hg. cbn beta.
    apply not_true_iff_false. intros Heq%str_eqb_eq. by apply Hg.
  - intros k Hk. rewrite Hget, scan_getitem.
    rewrite find_all_false; [done|]. apply Forall_rev.
    eapply Forall_impl; [exact Hk|]. intros g Hg. cbn beta.
    apply not_true_iff_false. intros Heq%str_eqb_eq. by apply Hg.
Qed.

(** When no two files share a key, the registry does not depend on the
    order in which the directory scan reports them. *)
Theorem discover_voices_order (w1 w2 : World) :
  voices_dir_exists w1 = voices_dir_exists w2 ->
  glob_pt w1 ≡ₚ glob_pt w2 ->
  NoDup (List.map voice_key (glob_pt w1)) ->
  discover_voices w1 = discover_voices w2.
Proof.
  intros Hdir HP Hnd. unfold discover_voices. rewrite <- Hdir.
  destruct (voices_dir_exists w1); cbn [negb]; [|done].
  assert (NoDup (List.map voice_key (glob_pt w2))) as Hnd'
    by (by rewrite <- (Permutation_map voice_key HP)).
  rewrite !scan_fresh by done. cbn [app].
  apply sorted_Permutation. by apply Permutation_map.
Qed.

(** A name as it is listed selects the voice it names: resolving a key of
    the registry that has no blank at either end returns the path stored
    under that key and prints nothing. *)
Theorem listed_voice_resolves (w : World) (k p : str) (s : State) :
  In (k, p) (discover_voices w) ->
  strip k = k ->
  resolve_voice k (discover_voices w) s = (Ok p, s).
Proof.
  intros Hin Hstrip.
  destruct (discover_voices_In _ _ _ Hin) as (f & _ & Hk & _).
  assert (strip (lower k) = k) as Hl.
  { rewrite Hk. unfold voice_key. rewrite lower_idem. fold (voice_key f).
    by rewrite <- Hk. }
  rewrite resolve_voice_steps. cbv zeta. rewrite Hl.
  pose proof (dict_getitem_NoDup _ _ _ (discover_voices_NoDup w) Hin) as Hg.
  by rewrite (dict_getitem_Ok _ _ _ Hg), Hg.
Qed.

End RegistryMore.

(** ** The log of calls *)

Section Logs.
Context {A B : Type} (P : Event -> Prop).

Lemma logs_ret (Q : A -> Prop) a : Q a -> logs P Q (ret a).
Proof.
  intros Ha s r s' [= <- <-]. split.
  - exists []. by rewrite app_nil_r.
  - by intros ? [= <-].
Qed.

Lemma logs_raise (Q : A -> Prop) e : logs P Q (raise e).
Proof.
  intros s r s' [= <- <-]. split; [|done].
  exists []. by rewrite app_nil_r.
Qed.

Lemma logs_lift (Q : A -> Prop) (r : result A) :
  (forall a, r = Ok a -> Q a) -> logs P Q (lift r).
Proof.
  intros Hr s r' s' [= <- <-]. split; [|done].
  exists []. by rewrite app_nil_r.
Qed.

Lemma logs_bind (Q : A -> Prop) (Q' : B -> Prop) (m : M A) (k : A -> M B) :
  logs P Q m -> (forall a, Q a -> logs P Q' (k a)) -> logs P Q' (bind m k).
Proof.
  intros Hm Hk s r s'. unfold bind.
  destruct (m s) as [[a|e] s1] eqn:E; destruct (Hm _ _ _ E) as [(l1 & E1 & H1) Ha].
  - intros Hka. destruct (Hk a (Ha a eq_refl) _ _ _ Hka) as [(l2 & E2 & H2) Hb].
    split; [|done]. exists (l1 ++ l2). rewrite E2, E1, <- app_assoc.
    split; [done|]. by apply Forall_app.
  - intros [= <- <-]. split; [|done]. by exists l1.
Qed.

Lemma logs_try_except (Q : A -> Prop) (body : M A) (handler : exn -> M A) :
  logs P Q body -> (forall e, logs P Q (handler e)) ->
  logs P Q (try_except body handler).
Proof.
  intros Hb Hh s r s'. unfold try_except.
  destruct (body s) as [[a|e] s1] eqn:E; destruct (Hb _ _ _ E) as [(l1 & E1 & H1) Ha].
  - intros [= <- <-]. split; [by exists l1 | done].
  - intros Hr. destruct (Hh e _ _ _ Hr) as [(l2 & E2 & H2) Hq].
    split; [|done]. exists (l1 ++ l2). rewrite E2, E1, <- app_assoc.
    split; [done|]. by apply Forall_app.
Qed.

Lemma logs_try_finally (Q : A -> Prop) (Q0 : unit -> Prop) (body : M A)
    (fin : M unit) :
  logs P Q body -> logs P Q0 fin -> logs P Q (try_finally body fin).
Proof.
  intros Hb Hf s r s'. unfold try_finally.
  destruct (body s) as [r1 s1] eqn:E. destruct (Hb _ _ _ E) as [(l1 & E1 & H1) Ha].
  destruct (fin s1) as [[u|e] s2] eqn:E'; destruct (Hf _ _ _ E') as [(l2 & E2 & H2) _];
    intros [= <- <-]; (split; [|done]); exists (l1 ++ l2);
    rewrite E2, E1, <- app_assoc; (split; [done|]); by apply Forall_app.
Qed.

Lemma logs_weaken (P' : Event -> Prop) (Q Q' : A -> Prop) (m : M A) :
  (forall ev, P' ev -> P ev) -> (forall a, Q a -> Q' a) ->
  logs P' Q m -> logs P Q' m.
Proof.
  intros HP HQ Hm s r s' E. destruct (Hm _ _ _ E) as [(l & El & Hl) Ha].
  split; [|by auto]. exists l. split; [done|]. by eapply Forall_impl.
Qed.

Lemma logs_ext (Q : A -> Prop) (m m' : M A) :
  (forall s, m s = m' s) -> logs P Q m' -> logs P Q m.
Proof. intros E Hm s r s'. rewrite E. apply Hm. Qed.

End Logs.

Lemma logs_print P m : logs P (fun _ => True) (print m).
Proof.
  intros s r s' [= <- <-]. split; [|done]. exists []. cbn [calls printed].
  by rewrite app_nil_r.
Qed.

Lemma logs_call P w ev : P ev -> logs P (fun _ => True) (call w ev).
Proof.
  intros Hev s r s' [= <- <-]. split; [|done]. exists [ev]. cbn [calls].
  split; [done|]. by constructor.
Qed.

Lemma logs_path_exists P p : logs P (fun _ => True) (path_exists p).
Proof.
  intros s r s' [= <- <-]. split; [|done]. exists []. by rewrite app_nil_r.
Qed.

Lemma logs_unlink P p : P (Unlink p) -> logs P (fun _ => True) (unlink p).
Proof.
  intros Hev s r s' [= <- <-]. split; [|done]. exists [Unlink p]. cbn [calls].
  split; [done|]. by constructor.
Qed.

Lemma logs_named_temporary_file P w :
  P NamedTemporaryFile ->
  logs P (fun p => p = tmp_name w) (named_temporary_file w).
Proof.
  intros Hev. unfold named_temporary_file.
  eapply logs_bind; [by apply logs_call|]. intros _ _ s r s' [= <- <-].
  split; [|by intros ? [= <-]]. exists []. cbn [calls]. by rewrite app_nil_r.
Qed.

Section PipelineLogs.
Context {R : PyRuntime}.

Lemma logs_resolve_voice P (name : str) (voices : dict) :
  logs P (fun p => exists k, In (k, p) voices) (resolve_voice name voices).
Proof.
  intros s r s'. rewrite resolve_voice_steps. cbv zeta.
  assert (forall st : State, exists l, calls st = calls st ++ l /\ Forall P l) as Hnil
    by (intros st; exists []; by rewrite app_nil_r).
  destruct (dict_contains voices _) eqn:Hc.
  { apply dict_getitem_contains in Hc as [v [-> Hin]]. intros [= <- <-].
    split; [done|]. intros ? [= <-]. by eauto. }
  destruct (List.find _ voices) as [[k p]|] eqn:Hf.
  { apply List.find_some in Hf as [Hin _]. intros [= <- <-].
    split; [done|]. intros ? [= <-]. by eauto. }
  destruct (List.filter _ voices) as [|[k p] ms] eqn:Hm.
  - destruct (first_english voices) as [[k p]|] eqn:He.
    + apply first_english_In in He as [Hin _]. intros [= <- <-].
      split; [apply (Hnil s)|]. intros ? [= <-]. by eauto.
    + destruct voices as [|[k p] voices]; intros [= <- <-];
        (split; [apply (Hnil s)|]); [done|]. intros ? [= <-]. exists k. by left.
  - assert (In (k, p) (List.filter (partial_hit (strip (lower name))) voices))
      as [Hin _]%List.filter_In by (rewrite Hm; by left).
    destruct ms; intros [= <- <-]; (split; [apply (Hnil s)|]);
      intros ? [= <-]; by eauto.
Qed.

Lemma logs_load_model P (w : World) (dev : Device) (dtype : Dtype) (attn : Attn) :
  (forall a, P (ModelFromPretrained (load_args dev dtype a))) ->
  (dev = mps -> P (ModelTo mps)) ->
  logs P (fun _ => True) (load_model w dev dtype attn).
Proof.
  intros Hc Hto. unfold load_model. apply logs_try_except.
  - unfold construct_model. destruct dev.
    + apply logs_call, (Hc attn).
    + eapply logs_bind; [apply logs_call, (Hc attn)|].
      intros _ _. by apply logs_call, Hto.
    + apply logs_call, (Hc attn).
  - intros e. destruct attn; [|apply logs_raise].
    eapply logs_bind; [apply logs_print|]. intros _ _.
    eapply logs_bind; [apply logs_call, (Hc sdpa)|]. intros _ _.
    destruct dev; [by apply logs_ret | by apply logs_call, Hto | by apply logs_ret].
Qed.

Lemma logs_wav_to_ogg_opus P (w : World) (wav ogg : str) :
  P (SubprocessRun (ffmpeg_cmd wav ogg)) ->
  logs P (fun _ => True) (wav_to_ogg_opus w wav ogg).
Proof.
  intros Hev. unfold wav_to_ogg_opus. cbv zeta.
  eapply logs_bind; [by apply logs_call|]. intros _ _.
  destruct (negb _); [apply logs_raise | by apply logs_ret].
Qed.

Lemma logs_save_output (w : World) (text out fmt voice_path : str)
    (cfg : Z * Z) (k : str) :
  In (k, voice_path) (discover_voices w) ->
  logs (pipeline_call w text out fmt cfg) (describes w out fmt)
       (save_output w (generated w) out fmt voice_path (selected_device w)).
Proof.
  intros Hin.
  destruct (speech_outputs (generated w)) as [|[wv|] rest] eqn:Hwv.
  - eapply logs_ext; [intros s; apply save_output_no_audio; by left|].
    apply logs_raise.
  - eapply logs_ext; [intros s; by apply (save_output_audio _ _ wv rest)|].
    eapply logs_bind; [by apply logs_call|]. intros _ _.
    eapply logs_bind with (Q := fun _ => True).
    + destruct (str_eqb (lower fmt) (lit "ogg")) eqn:Hogg.
      * eapply logs_bind; [apply logs_named_temporary_file, Hogg|].
        intros tmp ->. eapply logs_try_finally.
        -- eapply logs_bind.
           ++ apply logs_call. unfold pipeline_call. cbv zeta. rewrite Hogg. by eauto.
           ++ intros _ _. apply logs_wav_to_ogg_opus. unfold pipeline_call. cbv zeta. by rewrite Hogg.
        -- eapply logs_bind; [apply logs_path_exists|]. intros [] _.
           ++ apply logs_unlink. unfold pipeline_call. cbv zeta. by rewrite Hogg.
           ++ by apply logs_ret.
      * apply logs_call. unfold pipeline_call. cbv zeta. rewrite Hogg. by eauto.
    + intros _ _. apply logs_ret. unfold describes. cbn.
      repeat split; by eauto.
  - eapply logs_ext; [intros s; apply save_output_no_audio; right; by eauto|].
    apply logs_raise.
Qed.

Lemma logs_synthesize (w : World) (text out fmt voice_name : str) (cfg : Z * Z) :
  logs (pipeline_call w text out fmt cfg)
       (fun r => exists k, In (k, fst (fst r)) (discover_voices w)
                           /\ snd (fst r) = selected_device w
                           /\ snd r = generated w)
       (synthesize w text voice_name cfg).
Proof.
  unfold synthesize.
  eapply logs_bind; [by apply logs_call|]. intros _ _.
  unfold pipeline_call, selected_device, selected_dtype.
  destruct (select_device w) as [[dev dtype] attn]. cbn [fst snd]. cbv zeta.
  destruct (discover_voices w) as [|kv voices] eqn:Hd; [apply logs_raise|].
  rewrite <- Hd.
  eapply logs_bind; [apply logs_resolve_voice|]. intros p [k Hin].
  eapply logs_bind; [apply logs_print|]. intros _ _.
  eapply logs_bind; [by apply logs_call|]. intros _ _.
  eapply logs_bind.
  { apply logs_load_model; [intros a; split; by destruct dev|by intros ->]. }
  intros _ _.
  eapply logs_bind; [by apply logs_call|]. intros _ _.
  eapply logs_bind; [by apply logs_call|]. intros _ _.
  eapply logs_bind; [apply logs_call; by eauto|]. intros _ _.
  eapply logs_bind; [by apply logs_call|]. intros _ _.
  eapply logs_bind; [by apply logs_call|]. intros _ _.
  eapply logs_bind; [by apply logs_call|]. intros _ _.
  apply logs_ret. by eauto.
Qed.

(** Every run of [generate] only adds calls of the pipeline, and what it
    returns describes the run. *)
Lemma logs_generate (w : World) (text out voice_name : str) (cfg : Z * Z)
    (fmt : str) :
  logs (pipeline_call w text out fmt cfg) (describes w out fmt)
       (generate w text out voice_name cfg fmt).
Proof.
  unfold generate. eapply logs_bind; [apply logs_synthesize|].
  intros [[voice_path dev] outputs] (k & Hin & Hdev & Hout).
  cbn [fst snd] in Hin, Hdev, Hout. subst dev outputs.
  by eapply logs_save_output.
Qed.

End PipelineLogs.

(** ** The encoder and the loading, on their own *)

(** [wav_to_ogg_opus] runs ffmpeg once and prints nothing.  It returns
    exactly when the process could be run and exited with status 0; with
    another status it raises the run-time error whose message ends with
    the first 500 characters of the encoder's error output, so at most 500
    of them and all of them when there are no more; when the process could
    not be run, that exception is the one raised. *)
Theorem wav_to_ogg_opus_status (w : World) (wav ogg : str) (s : State) :
  calls (snd (wav_to_ogg_opus w wav ogg s))
  = calls s ++ [SubprocessRun (ffmpeg_cmd wav ogg)]
  /\ stderr (snd (wav_to_ogg_opus w wav ogg s)) = stderr s
  /\ (fst (wav_to_ogg_opus w wav ogg s) = Ok tt
      <-> outcome w (SubprocessRun (ffmpeg_cmd wav ogg)) = Ok tt
          /\ returncode w (ffmpeg_cmd wav ogg) = 0%Z)
  /\ (outcome w (SubprocessRun (ffmpeg_cmd wav ogg)) = Ok tt ->
      returncode w (ffmpeg_cmd wav ogg) <> 0%Z ->
      exists tail,
        fst (wav_to_ogg_opus w wav ogg s)
        = Raise (RuntimeError (lit "ffmpeg conversion failed: " ++ tail))
        /\ tail = firstn 500 (run_stderr w (ffmpeg_cmd wav ogg))
        /\ (length tail <= 500)%nat
        /\ ((length (run_stderr w (ffmpeg_cmd wav ogg)) <= 500)%nat ->
            tail = run_stderr w (ffmpeg_cmd wav ogg)))
  /\ (forall e,
        outcome w (SubprocessRun (ffmpeg_cmd wav ogg)) = Raise e ->
        fst (wav_to_ogg_opus w wav ogg s) = Raise e).
Proof.
  unfold wav_to_ogg_opus. cbv zeta. run_monad.
  destruct (outcome w (SubprocessRun _)) as [[]|e0] eqn:Hrun; cbn [fst snd calls stderr].
  - destruct (Z.eqb_spec (returncode w (ffmpeg_cmd wav ogg)) 0) as [Hrc|Hrc];
      cbn [negb fst snd calls stderr].
    + repeat split; done.
    + split; [done|]. split; [done|]. split; [split; [done | by intros [_ ?]]|].
      split; [|done]. intros _ _. eexists. split; [reflexivity|].
      split; [done|]. split; [apply List.firstn_le_length|].
      intros Hlen. by apply List.firstn_all2.
  - repeat split; try done; try (by intros [? _]); by intros ? [= <-].
Qed.

(** Whatever the device and the kernel, loading constructs the model once
    with the kernel asked for and, only if that attempt raised and the
    kernel was the fused one, once more with [sdpa]; the precision and the
    device map are the same in both, and there is never a third. *)
Theorem load_model_constructions (w : World) (dev : Device) (dtype : Dtype)
    (attn : Attn) (s : State) :
  exists l,
    calls (snd (load_model w dev dtype attn s)) = calls s ++ l
    /\ (List.filter is_construction l
        = [ModelFromPretrained (load_args dev dtype attn)]
        \/ (attn = flash_attention_2
            /\ (exists e, fst (construct_model w dev dtype attn s) = Raise e)
            /\ List.filter is_construction l
               = [ModelFromPretrained (load_args dev dtype flash_attention_2);
                  ModelFromPretrained (load_args dev dtype sdpa)])).
Proof.
  unfold load_model, construct_model, load_args.
  destruct dev, attn; run_monad;
    repeat match goal with
           | |- context [outcome w ?ev] =>
               destruct (outcome w ev) as [[]|?]; cbn [fst snd calls stderr files]
           end;
    rewrite <- ?app_assoc; cbn [app fst snd calls];
    eexists; (split; [reflexivity|]); cbn [List.filter is_construction];
    first [by left | right; by eauto].
Qed.

(** ** What a run of [generate] does and does not do *)
Section GenerateRuns.
Context {R : PyRuntime}.

(** Whatever the world answers and however the run ends, [generate]
    deletes nothing but its own temporary file, writes audio only to that
    file or to the requested output path, and runs no process other than
    ffmpeg from the one to the other. *)
Theorem generate_touches_only (w : World) (text out voice_name : str)
    (cfg : Z * Z) (fmt : str) (s : State) :
  exists l,
    calls (snd (generate w text out voice_name cfg fmt s)) = calls s ++ l
    /\ Forall (touches_only w out) l.
Proof.
  destruct (generate w text out voice_name cfg fmt s) as [r s'] eqn:E.
  destruct (logs_generate w text out voice_name cfg fmt _ _ _ E)
    as [(l & El & Hl) _].
  exists l. split; [done|]. eapply Forall_impl; [exact Hl|].
  intros ev. unfold pipeline_call, touches_only. cbv zeta.
  destruct ev; try done.
  - intros [_ ->]. destruct (str_eqb _ _); by eauto.
  - by intros [_ ->].
  - by intros [_ ->].
Qed.

(** With a format other than [ogg], no temporary file is created, no
    process is run and nothing is deleted: the audio can only be written
    straight to the output path. *)
Theorem generate_direct (w : World) (text out voice_name : str)
    (cfg : Z * Z) (fmt : str) (s : State) :
  lower fmt <> lit "ogg" ->
  exists l,
    calls (snd (generate w text out voice_name cfg fmt s)) = calls s ++ l
    /\ Forall direct_only l
    /\ (forall wv p, In (SaveAudio wv p) l -> p = out).
Proof.
  intros Hfmt.
  assert (str_eqb (lower fmt) (lit "ogg") = false) as Hogg
    by (apply not_true_iff_false; by intros ?%str_eqb_eq).
  destruct (generate w text out voice_name cfg fmt s) as [r s'] eqn:E.
  destruct (logs_generate w text out voice_name cfg fmt _ _ _ E)
    as [(l & El & Hl) _].
  exists l. split; [done|]. split.
  - eapply Forall_impl; [exact Hl|]. intros ev.
    unfold pipeline_call, direct_only. cbv zeta. rewrite Hogg.
    destruct ev; try done; by intros [? _].
  - intros wv p Hin. rewrite List.Forall_forall in Hl. specialize (Hl _ Hin).
    unfold pipeline_call in Hl. cbv zeta in Hl. rewrite Hogg in Hl. by destruct Hl.
Qed.


(** The dict of a successful run has the output path as given under
    [output_path], the lowered format under [format], the name of the
    selected device under [device], and under [voice] the file name of a
    voice of the registry. *)
Theorem generate_metadata (w : World) (text out voice_name : str)
    (cfg : Z * Z) (fmt : str) (s : State) (m : Metadata) :
  fst (generate w text out voice_name cfg fmt s) = Ok m ->
  describes w out fmt m.
Proof.
  destruct (generate w text out voice_name cfg fmt s) as [r s'] eqn:E.
  destruct (logs_generate w text out voice_name cfg fmt _ _ _ E) as [_ Hm].
  cbn [fst]. apply Hm.
Qed.

Lemma discover_voices_sorted (w : World) :
  StronglySorted str_lt (List.map fst (discover_voices w)).
Proof.
  unfold discover_voices. destruct (voices_dir_exists w); cbn [negb];
    [|constructor].
  apply sorted_keys, scan_NoDup. constructor.
Qed.

(** With [--list-voices], [main] prints the keys of the registry, one per
    line, in strictly increasing order, and does nothing else: no call is
    made, nothing goes to the error stream, no exception is raised, also
    when no voice is installed (nothing is printed then). *)
Theorem main_list_voices (w : World) (args : Args) (s : State) :
  arg_list_voices args = true ->
  exists names,
    main w args s = (Ok (List.map OutName names), s)
    /\ names = List.map fst (discover_voices w)
    /\ StronglySorted str_lt names
    /\ (voices_dir_exists w = false -> names = []).
Proof.
  intros Hl. exists (List.map fst (discover_voices w)).
  split; [|split; [done|split; [apply discover_voices_sorted|]]].
  - unfold main. rewrite Hl. unfold ret. by rewrite List.map_map.
  - intros Hd. unfold discover_voices. by rewrite Hd.
Qed.


End GenerateRuns.

(** ** Instances *)

(** [Emma] against the registry of [en-emma_woman]. *)
Lemma resolve_voice_entry_witness :
  exists k p s',
    @resolve_voice posix_ascii (lit "Emma") emma_registry s0 = (Ok p, s')
    /\ In (k, p) emma_registry
    /\ calls s' = calls s0
    /\ files s' = files s0
    /\ (stderr s' = stderr s0
        \/ exists ks, stderr s' = stderr s0 ++ [WarnMultiple (lit "Emma") ks]
        \/ stderr s' = stderr s0 ++ [WarnDefault (lit "Emma") k]
        \/ stderr s' = stderr s0 ++ [WarnUsing (lit "Emma") p]).
Proof.
  apply (@resolve_voice_entry posix_ascii (lit "Emma") emma_registry s0).
  discriminate.
Defined.

(** [Emma] and [  EMMA ] select the same voice. *)
Lemma resolve_voice_spelling_witness :
  fst (@resolve_voice posix_ascii (lit "Emma") emma_registry s0)
  = fst (@resolve_voice posix_ascii (lit "  EMMA ") emma_registry s0).
Proof.
  apply (@resolve_voice_spelling posix_ascii). vm_compute; reflexivity.
Defined.

(** No key of the foreign registry has anything in common with [zoe]. *)
Lemma resolve_voice_fallback_witness :
  (exists pre k p post,
     foreign_registry = pre ++ (k, p) :: post
     /\ startswith k (lit "en-") = true
     /\ Forall (fun kv => startswith (fst kv) (lit "en-") = false) pre
     /\ @resolve_voice posix_ascii (lit "zoe") foreign_registry s0
        = (Ok p, printed (WarnDefault (lit "zoe") k) s0))
  \/ (exists k p rest,
        foreign_registry = (k, p) :: rest
        /\ Forall (fun kv => startswith (fst kv) (lit "en-") = false) foreign_registry
        /\ @resolve_voice posix_ascii (lit "zoe") foreign_registry s0
           = (Ok p, printed (WarnUsing (lit "zoe") p) s0)).
Proof.
  apply (@resolve_voice_fallback posix_ascii (lit "zoe") foreign_registry s0).
  - discriminate.
  - repeat constructor.
Defined.

(** A name of two blanks against the foreign registry. *)
Lemma resolve_voice_blank_witness :
  @resolve_voice posix_ascii (lit "  ") foreign_registry s0
  = (Ok (lit "/v/de-Spk0_man.pt"),
     printed (WarnMultiple (lit "  ") [lit "de-spk0_man"; lit "fr-spk1_woman"]) s0).
Proof.
  apply (@resolve_voice_blank posix_ascii (lit "  ") (lit "de-spk0_man")
           (lit "/v/de-Spk0_man.pt")
           [(lit "fr-spk1_woman", lit "/v/fr-Spk1_woman.pt")] s0).
  - reflexivity.
  - reflexivity.
  - repeat constructor.
Defined.

(** The key of [/opt/voices/en-Emma_woman.pt]. *)
Lemma voice_key_of_path_witness :
  @voice_key posix_ascii (lit "/opt/voices" ++ 47 :: lit "en-Emma_woman" ++ lit ".pt")
  = lit "en-emma_woman".
Proof.
  rewrite (@voice_key_of_path posix_ascii (lit "/opt/voices") (lit "en-Emma_woman")).
  - reflexivity.
  - vm_compute. intuition discriminate.
Defined.

(** [Emma.pt] found before [emma.pt]: the later file is the one kept. *)
Lemma discover_voices_lookup_witness :
  dict_getitem
    (@discover_voices posix_ascii
       (quiet_world true [lit "/v/a/Emma.pt"; lit "/v/b/emma.pt"] []))
    (@voice_key posix_ascii (lit "/v/b/emma.pt"))
  = Ok (lit "/v/b/emma.pt").
Proof.
  destruct (@discover_voices_lookup posix_ascii
              (quiet_world true [lit "/v/a/Emma.pt"; lit "/v/b/emma.pt"] [])
              eq_refl) as [H _].
  apply (H [lit "/v/a/Emma.pt"] (lit "/v/b/emma.pt") []); [reflexivity|constructor].
Defined.

(** Two voices reported in either order. *)
Lemma discover_voices_order_witness :
  @discover_voices posix_ascii
    (quiet_world true [lit "/v/en-Emma_woman.pt"; lit "/v/en-Carter_man.pt"] [])
  = @discover_voices posix_ascii
      (quiet_world true [lit "/v/en-Carter_man.pt"; lit "/v/en-Emma_woman.pt"] []).
Proof.
  apply (@discover_voices_order posix_ascii).
  - reflexivity.
  - apply perm_swap.
  - cbn [List.map glob_pt quiet_world]. apply NoDup_cons_2; [|apply NoDup_singleton].
    intros H%list_elem_of_singleton. vm_compute in H. discriminate H.
Defined.

(** The one voice of a directory, resolved by the name it is listed under. *)
Lemma listed_voice_resolves_witness :
  @resolve_voice posix_ascii (lit "en-emma_woman")
    (@discover_voices posix_ascii (quiet_world true [lit "/v/en-Emma_woman.pt"] []))
    s0
  = (Ok (lit "/v/en-Emma_woman.pt"), s0).
Proof.
  apply (@listed_voice_resolves posix_ascii).
  - vm_compute. by left.
  - reflexivity.
Defined.

(** An encoder that exits with status 1 after a short diagnostic. *)
Lemma wav_to_ogg_opus_status_witness :
  exists tail,
    fst (wav_to_ogg_opus failing_encoder_world (lit "/tmp/a.wav") (lit "/tmp/a.ogg") s0)
    = Raise (RuntimeError (lit "ffmpeg conversion failed: " ++ tail))
    /\ tail = firstn 500 (run_stderr failing_encoder_world
                            (ffmpeg_cmd (lit "/tmp/a.wav") (lit "/tmp/a.ogg")))
    /\ (length tail <= 500)%nat
    /\ ((length (run_stderr failing_encoder_world
                   (ffmpeg_cmd (lit "/tmp/a.wav") (lit "/tmp/a.ogg"))) <= 500)%nat ->
        tail = run_stderr failing_encoder_world
                 (ffmpeg_cmd (lit "/tmp/a.wav") (lit "/tmp/a.ogg"))).
Proof.
  destruct (wav_to_ogg_opus_status failing_encoder_world (lit "/tmp/a.wav")
              (lit "/tmp/a.ogg") s0) as (_ & _ & _ & H & _).
  apply H; [reflexivity | discriminate].
Defined.

(** A run with [--format wav] on the quiet host. *)
Lemma generate_direct_witness :
  exists l,
    calls (snd (@generate posix_ascii
                  (quiet_world true [lit "/v/en-Emma_woman.pt"]
                     [Some {| samples := 48000 |}])
                  (lit "Hello") (lit "/tmp/hello.wav") (lit "Emma") (3, 2)%Z
                  (lit "wav") s0))
    = calls s0 ++ l
    /\ Forall direct_only l
    /\ (forall wv p, In (SaveAudio wv p) l -> p = lit "/tmp/hello.wav").
Proof.
  apply (@generate_direct posix_ascii). vm_compute. discriminate.
Defined.

(** The metadata of that run. *)
Lemma generate_metadata_witness :
  @describes posix_ascii
    (quiet_world true [lit "/v/en-Emma_woman.pt"] [Some {| samples := 48000 |}])
    (lit "/tmp/hello.wav") (lit "wav")
    {| output_path := lit "/tmp/hello.wav";
       format := lit "wav";
       voice := lit "en-Emma_woman.pt";
       device := lit "cpu" |}.
Proof.
  apply (@generate_metadata posix_ascii _ (lit "Hello") _ (lit "Emma") (3, 2)%Z _ s0).
  vm_compute. reflexivity.
Defined.

(** [--list-voices] on a host with two voices. *)
Lemma main_list_voices_witness :
  exists names,
    @main posix_ascii
      (quiet_world true [lit "/v/en-Emma_woman.pt"; lit "/v/en-Carter_man.pt"] [])
      (hello_args true) s0
    = (Ok (List.map OutName names), s0)
    /\ names = List.map fst
                 (@discover_voices posix_ascii
                    (quiet_world true
                       [lit "/v/en-Emma_woman.pt"; lit "/v/en-Carter_man.pt"] []))
    /\ StronglySorted str_lt names
    /\ (voices_dir_exists
          (quiet_world true [lit "/v/en-Emma_woman.pt"; lit "/v/en-Carter_man.pt"] [])
        = false -> names = []).
Proof.
  apply (@main_list_voices posix_ascii). reflexivity.
Defined.


(** ** Two more steps *)
Section MoreSteps.
Context {R : PyRuntime}.

(** The substring step: when the lowered and stripped name is no key and
    no form of a key, the first entry in iteration order whose key contains
    it or is contained in it is returned; nothing is printed when it is
    the only such entry, and otherwise the warning lists all of them in
    iteration order. *)
Theorem resolve_voice_substring (name : str) (pre post : dict) (k p : str)
    (s : State) :
  dict_contains (pre ++ (k, p) :: post) (strip (lower name)) = false ->
  Forall (fun kv => convenience_hit (strip (lower name)) kv = false)
         (pre ++ (k, p) :: post) ->
  Forall (fun kv => partial_hit (strip (lower name)) kv = false) pre ->
  partial_hit (strip (lower name)) (k, p) = true ->
  resolve_voice name (pre ++ (k, p) :: post) s
  = (Ok p,
     match List.filter (partial_hit (strip (lower name))) post with
     | [] => s
     | others => printed (WarnMultiple name (k :: List.map fst others)) s
     end).
Proof.
  intros Hc Hf Hpre Hk. rewrite resolve_voice_steps. cbv zeta.
  rewrite Hc, (find_all_false _ _ Hf), List.filter_app.
  assert (List.filter (partial_hit (strip (lower name))) pre = []) as ->.
  { clear -Hpre. induction Hpre as [|kv l Hkv _ IH]; [done|].
    cbn [List.filter]. by rewrite Hkv. }
  cbn [app List.filter]. rewrite Hk.
  by destruct (List.filter _ post).
Qed.

(** Loading as [generate] does it: a second construction happens only on
    a CUDA host, in reduced precision, and the model is moved with
    [model.to] only on an [mps] host, after its one construction. *)
Theorem retry_only_on_cuda (w : World) (dev : Device) (dtype : Dtype)
    (attn : Attn) (s : State) :
  select_device w = (dev, dtype, attn) ->
  exists l,
    calls (snd (load_model w dev dtype attn s)) = calls s ++ l
    /\ (length (List.filter is_construction l) = 2%nat ->
        cuda_is_available w = true /\ dev = cuda /\ dtype = bfloat16
        /\ Forall (fun ev => is_construction ev = true) l)
    /\ (forall d, In (ModelTo d) l ->
        cuda_is_available w = false /\ dev = mps /\ d = mps
        /\ l = [ModelFromPretrained (load_args mps float32 sdpa); ModelTo mps]).
Proof.
  unfold select_device, load_model, construct_model, load_args.
  destruct (cuda_is_available w); [|destruct (mps_is_available w)];
    intros [= <- <- <-]; run_monad;
    repeat match goal with
           | |- context [outcome w ?ev] =>
               destruct (outcome w ev) as [[]|?]; cbn [fst snd calls stderr files]
           end;
    rewrite <- ?app_assoc; cbn [app fst snd calls];
    eexists; (split; [reflexivity|]); cbn [List.filter is_construction length In];
    (split; [try discriminate; intros _; repeat split; by repeat constructor|]);
    intros d Hd; repeat (destruct Hd as [Hd|Hd]; try discriminate Hd);
    try done; by injection Hd as <-.
Qed.

End MoreSteps.

(** [mik] in the registry of the two Mikes, after one other voice. *)
Lemma resolve_voice_substring_witness :
  @resolve_voice posix_ascii (lit "mik")
    ([(lit "en-emma_woman", lit "/v/emma.pt")]
     ++ (lit "en-mike_man", lit "/v/mike.pt")
     :: [(lit "en-mikeb_man", lit "/v/mikeb.pt")]) s0
  = (Ok (lit "/v/mike.pt"),
     printed (WarnMultiple (lit "mik") [lit "en-mike_man"; lit "en-mikeb_man"]) s0).
Proof.
  apply (@resolve_voice_substring posix_ascii (lit "mik")
           [(lit "en-emma_woman", lit "/v/emma.pt")]
           [(lit "en-mikeb_man", lit "/v/mikeb.pt")]
           (lit "en-mike_man") (lit "/v/mike.pt") s0).
  - reflexivity.
  - repeat constructor.
  - repeat constructor.
  - reflexivity.
Defined.

(** The CUDA host whose fused kernel fails. *)
Lemma retry_only_on_cuda_witness :
  exists l,
    calls (snd (load_model flash_failing_world cuda bfloat16 flash_attention_2 s0))
    = calls s0 ++ l
    /\ (length (List.filter is_construction l) = 2%nat ->
        cuda_is_available flash_failing_world = true /\ cuda = cuda
        /\ bfloat16 = bfloat16
        /\ Forall (fun ev => is_construction ev = true) l)
    /\ (forall d, In (ModelTo d) l ->
        cuda_is_available flash_failing_world = false /\ cuda = mps /\ d = mps
        /\ l = [ModelFromPretrained (load_args mps float32 sdpa); ModelTo mps]).
Proof.
  apply (retry_only_on_cuda flash_failing_world). reflexivity.
Defined.
